(** * tap-smart-open: path resolution, schema inference and incremental
    filtering of [tap_smart_open/streams.py], as a shallow embedding.

  Python values are an inductive type, dictionaries are insertion-ordered
  association lists, sets of type tags are [gset string], exceptions are
  a [result] type, and the mutable stream object together with the
  storage backend it talks to is threaded through a small state monad. *)

From stdpp Require Import base gmap sets list strings sorting.
From Stdlib Require Import ZArith Ascii Lia.

Set Default Proof Using "Type".
Set Warnings "-register-all,-clear-no-such-hyp".

(** ** Python values *)

Module Py.

(** Exceptions the modelled code can raise or let through. *)
Inductive exn :=
| ValueError (msg : string)
| TypeError
| KeyError (key : string)
| AttributeError
| ReError
| IOError (msg : string).

Inductive result (A : Type) :=
| Ok (a : A)
| Raise (e : exn).
Arguments Ok {A} a.
Arguments Raise {A} e.

(** [datetime.datetime]: an instant counted in microseconds, either with
    a UTC offset applied (aware) or as wall-clock time (naive). *)
Record datetime := { dt_aware : bool; dt_micros : Z }.

(** [float]: every IEEE double is [m * 2^e] for integers [m], [e], or
    one of the three special values. *)
Inductive pyfloat :=
| FNan
| FInf (neg : bool)
| FFin (m e : Z).

Inductive pyval :=
| PNone
| PBool (b : bool)
| PInt (z : Z)
| PFloat (f : pyfloat)
| PStr (s : string)
| PDatetime (d : datetime)
| PDict
| PList.

(** The checkpointed replication value handed over by the state layer:
    a JSON scalar or an already parsed datetime. *)
Inductive cursor :=
| CBool (b : bool)
| CInt (z : Z)
| CFloat (f : pyfloat)
| CStr (s : string)
| CDatetime (d : datetime).

(** *** Ordering of values ([<=], [>]) *)

Inductive num :=
| NNan
| NInf (neg : bool)
| NDyadic (m e : Z).

Definition num_of_float (f : pyfloat) : num :=
  match f with
  | FNan => NNan
  | FInf s => NInf s
  | FFin m e => NDyadic m e
  end.

Definition num_of_val (v : pyval) : option num :=
  match v with
  | PBool b => Some (NDyadic (if b then 1 else 0) 0)
  | PInt z => Some (NDyadic z 0)
  | PFloat f => Some (num_of_float f)
  | _ => None
  end.

Definition num_of_cursor (c : cursor) : option num :=
  match c with
  | CBool b => Some (NDyadic (if b then 1 else 0) 0)
  | CInt z => Some (NDyadic z 0)
  | CFloat f => Some (num_of_float f)
  | _ => None
  end.

(** Outcome of a rich comparison: an order, IEEE "unordered" (a NaN is
    involved: every ordering operator answers [False]), or operands whose
    types do not support ordering ([TypeError]). *)
Inductive ordering :=
| Ordered (c : comparison)
| Unordered
| NotSupported.

Definition dyadic_compare (m1 e1 m2 e2 : Z) : comparison :=
  let e := Z.min e1 e2 in
  (m1 * 2 ^ (e1 - e) ?= m2 * 2 ^ (e2 - e))%Z.

Definition num_compare (a b : num) : ordering :=
  match a, b with
  | NNan, _ | _, NNan => Unordered
  | NInf true, NInf true | NInf false, NInf false => Ordered Eq
  | NInf true, _ | _, NInf false => Ordered Lt
  | NInf false, _ | _, NInf true => Ordered Gt
  | NDyadic m1 e1, NDyadic m2 e2 => Ordered (dyadic_compare m1 e1 m2 e2)
  end.

Definition datetime_compare (a b : datetime) : ordering :=
  if Bool.eqb (dt_aware a) (dt_aware b)
  then Ordered (dt_micros a ?= dt_micros b)%Z
  else NotSupported.

Definition py_compare (v : pyval) (c : cursor) : ordering :=
  match num_of_val v, num_of_cursor c with
  | Some a, Some b => num_compare a b
  | _, _ =>
      match v, c with
      | PStr a, CStr b => Ordered (String.compare a b)
      | PDatetime a, CDatetime b => datetime_compare a b
      | _, _ => NotSupported
      end
  end.

(** [v <= c] *)
Definition py_le (v : pyval) (c : cursor) : result bool :=
  match py_compare v c with
  | Ordered Gt => Ok false
  | Ordered _ => Ok true
  | Unordered => Ok false
  | NotSupported => Raise TypeError
  end.

(** [v > c] *)
Definition py_gt (v : pyval) (c : cursor) : result bool :=
  match py_compare v c with
  | Ordered Gt => Ok true
  | Ordered _ => Ok false
  | Unordered => Ok false
  | NotSupported => Raise TypeError
  end.

(** *** Dictionaries: insertion-ordered, keyed by strings *)

(** [d.get(k)] *)
Fixpoint dict_get {V : Type} (k : string) (d : list (string * V)) : option V :=
  match d with
  | [] => None
  | (k', v) :: d' => if String.eqb k k' then Some v else dict_get k d'
  end.

(** [d[k] = v]: an existing key keeps its position, a new one goes last. *)
Fixpoint dict_set {V : Type} (k : string) (v : V) (d : list (string * V))
    : list (string * V) :=
  match d with
  | [] => [(k, v)]
  | (k', v') :: d' =>
      if String.eqb k k' then (k, v) :: d' else (k', v') :: dict_set k v d'
  end.

(** [k in d] *)
Definition dict_mem {V : Type} (k : string) (d : list (string * V)) : bool :=
  match dict_get k d with Some _ => true | None => false end.

(** *** JSON-like objects (schemas) and truth values *)

Inductive json :=
| JNull
| JBool (b : bool)
| JInt (z : Z)
| JStr (s : string)
| JList (l : list json)
| JDict (kvs : list (string * json)).

(** [bool(j)]: empty containers, [0], the empty string, [False] and
    [None] are false. *)
Definition json_truthy (j : json) : bool :=
  match j with
  | JNull => false
  | JBool b => b
  | JInt z => negb (z =? 0)%Z
  | JStr s => negb (String.eqb s "")
  | JList l => match l with [] => false | _ => true end
  | JDict kvs => match kvs with [] => false | _ => true end
  end.

(** [j.get(k)] on a schema object. *)
Definition json_field (k : string) (j : json) : option json :=
  match j with
  | JDict kvs => dict_get k kvs
  | _ => None
  end.

(** Truth value of an optional string ([None] and [""] are false). *)
Definition truthy_str (o : option string) : bool :=
  match o with
  | Some s => negb (String.eqb s "")
  | None => false
  end.

(** *** Strings *)

(** [c in s] for a one-character [c]. *)
Fixpoint contains_char (c : ascii) (s : string) : bool :=
  match s with
  | EmptyString => false
  | String a s' => if Ascii.eqb a c then true else contains_char c s'
  end.

(** [s.endswith(c)] for a one-character [c]. *)
Fixpoint ends_with_char (c : ascii) (s : string) : bool :=
  match s with
  | EmptyString => false
  | String a EmptyString => Ascii.eqb a c
  | String _ s' => ends_with_char c s'
  end.

(** [s.startswith(c)] for a one-character [c]. *)
Definition starts_with_char (c : ascii) (s : string) : bool :=
  match s with
  | String a _ => Ascii.eqb a c
  | EmptyString => false
  end.

(** [s[:-1]] *)
Fixpoint drop_last (s : string) : string :=
  match s with
  | EmptyString => EmptyString
  | String _ EmptyString => EmptyString
  | String a s' => String a (drop_last s')
  end.

(** [s.split(c)] for a one-character separator [c]. *)
Fixpoint split (c : ascii) (s : string) : list string :=
  match s with
  | EmptyString => [EmptyString]
  | String a s' =>
      if Ascii.eqb a c then EmptyString :: split c s'
      else match split c s' with
           | h :: t => String a h :: t
           | [] => [String a EmptyString]
           end
  end.

(** [s.lower()] on ASCII letters. *)
Definition lower_char (a : ascii) : ascii :=
  let n := nat_of_ascii a in
  if ((65 <=? n) && (n <=? 90))%nat then ascii_of_nat (n + 32) else a.

Fixpoint lower (s : string) : string :=
  match s with
  | EmptyString => EmptyString
  | String a s' => String (lower_char a) (lower s')
  end.

(** [sorted(l)] on strings: code-point order. *)
Definition str_le (a b : string) : Prop := String.leb a b = true.

#[global] Instance str_le_dec : RelDecision str_le.
Proof. intros a b. unfold str_le. apply _. Defined.

Definition sorted (l : list string) : list string := merge_sort str_le l.

End Py.
Export Py.

Definition record := list (string * pyval).

(** ** Regular expressions: the part of [re] the path filter relies on *)

Module Regex.

(** Patterns after [re.compile]. [Sat p] is one character satisfying [p]
    (a literal, a class, or the dot); [Bol] and [Eol] are the anchors
    [^] and [$]. *)
Inductive regex :=
| Never
| Eps
| Sat (p : ascii -> bool)
| Bol
| Eol
| Alt (r1 r2 : regex)
| Cat (r1 r2 : regex)
| Star (r : regex).

Definition newline : ascii := ascii_of_nat 10.

Definition Chr (a : ascii) : regex := Sat (Ascii.eqb a).
Definition Dot : regex := Sat (fun c => negb (Ascii.eqb c newline)).

Fixpoint Lit (s : string) : regex :=
  match s with
  | EmptyString => Eps
  | String a s' => Cat (Chr a) (Lit s')
  end.

(** [$] holds at the end of the subject and just before a final newline. *)
Definition at_end (s : list ascii) (i : nat) : bool :=
  (i =? length s)%nat
  || ((S i =? length s)%nat && bool_decide (s !! i = Some newline)).

(** A match of [r] in the subject [s] from position [i] up to [j]. *)
Inductive matches (s : list ascii) : regex -> nat -> nat -> Prop :=
| M_Eps i : matches s Eps i i
| M_Sat p i c : s !! i = Some c -> p c = true -> matches s (Sat p) i (S i)
| M_Bol : matches s Bol 0 0
| M_Eol i : at_end s i = true -> matches s Eol i i
| M_AltL r1 r2 i j : matches s r1 i j -> matches s (Alt r1 r2) i j
| M_AltR r1 r2 i j : matches s r2 i j -> matches s (Alt r1 r2) i j
| M_Cat r1 r2 i j k :
    matches s r1 i j -> matches s r2 j k -> matches s (Cat r1 r2) i k
| M_Star0 r i : matches s (Star r) i i
| M_StarS r i j k :
    matches s r i j -> matches s (Star r) j k -> matches s (Star r) i k.

(** [n] rounds of extending the positions [X] by one more step of [f]. *)
Fixpoint closure (f : nat -> list nat) (n : nat) (X : list nat) : list nat :=
  match n with
  | O => X
  | S n' => closure f n' (X ++ (X ≫= f))
  end.

(** All positions where a match of [r] starting at [i] can end. *)
Fixpoint ends (r : regex) (s : list ascii) (i : nat) : list nat :=
  match r with
  | Never => []
  | Eps => [i]
  | Sat p =>
      match s !! i with
      | Some c => if p c then [S i] else []
      | None => []
      end
  | Bol => if (i =? 0)%nat then [i] else []
  | Eol => if at_end s i then [i] else []
  | Alt r1 r2 => ends r1 s i ++ ends r2 s i
  | Cat r1 r2 => ends r1 s i ≫= ends r2 s
  | Star r1 => closure (ends r1 s) (S (length s)) [i]
  end.

(** [regex.search(s)] as a truth value: a match starting anywhere. *)
Definition search (r : regex) (s : string) : bool :=
  let l := String.list_ascii_of_string s in
  existsb (fun i => match ends r l i with [] => false | _ => true end)
          (seq 0 (S (length l))).

(** [regex.fullmatch(s)] as a truth value: a match of all of [s]. *)
Definition fullmatch (r : regex) (s : string) : bool :=
  let l := String.list_ascii_of_string s in
  bool_decide (length l ∈ ends r l 0).

End Regex.
Export Regex.

(** ** Collaborators of a stream *)

(** [urllib.parse.urlparse]: the three components the resolver uses. *)
Record url := { url_scheme : string; url_netloc : string; url_path : string }.

(** Library functions; [None] stands for a raised exception:
    [dateutil.parser.isoparse], [int(str)], [float(str)], [re.compile]
    and [urllib.parse.urlparse]. *)
Record pylib := {
  isoparse : string -> option datetime;
  int_of_str : string -> option Z;
  float_of_str : string -> option pyfloat;
  re_compile : string -> option regex;
  urlparse : string -> option url;
}.

(** One entry of a directory listing: an info mapping with its optional
    ["name"] and ["type"] items, or a bare name. *)
Inductive ls_entry :=
| LsInfo (name type : option string)
| LsName (s : string).

(** The storage-access layer, the clock and the state layer. Listings take
    the directory URI (it fixes the connection options) and the remote
    directory; a reader yields the records of one resource and may end in
    an exception. *)
Record backend := {
  open_files : string -> result (list string);
  listdir_detail : string -> string -> result (list ls_entry);
  listdir_names : string -> string -> result (list string);
  read_format : string -> string -> list record * option exn;
  utcnow_isoformat : nat -> string;
  starting_replication_key_value : option cursor;
}.

(** The [stream_config] mapping of one stream. *)
Record stream_config := {
  cfg_name : string;
  cfg_uri : option string;
  cfg_uris : option (list string);
  cfg_pattern : option string;
  cfg_format : option string;
  cfg_schema : option json;
  cfg_replication_key : option string;
  cfg_keys : list string;
  cfg_infer_samples : option Z;
}.

(** What a run leaves behind besides its results: the calls to the
    storage layer made while resolving paths, the warnings logged, the
    clock readings, and every start of the raw record iterator. *)
Inductive event :=
| EvOpenFiles (uri : string)
| EvListdir (remote_dir : string)
| EvWarning (msg : string)
| EvUtcnow
| EvIterRecordsRaw (limit : option Z).

(** The mutable part of a [SmartOpenStream]: the path cache, the number
    of clock readings taken so far, and the events in order. *)
Record stream := {
  _cached_paths : option (list string);
  clock : nat;
  trace : list event;
}.

Definition new_stream : stream :=
  {| _cached_paths := None; clock := 0; trace := [] |}.

(** *** State and exceptions *)

Definition M (A : Type) : Type := stream -> result A * stream.

#[global] Instance M_ret : MRet M := fun A a st => (Ok a, st).

#[global] Instance M_bind : MBind M := fun A B f m st =>
  match m st with
  | (Ok a, st') => f a st'
  | (Raise e, st') => (Raise e, st')
  end.

Definition raise {A : Type} (e : exn) : M A := fun st => (Raise e, st).

Definition lift {A : Type} (r : result A) : M A := fun st => (r, st).

Definition lift_opt {A : Type} (e : exn) (o : option A) : M A :=
  fun st => (match o with Some a => Ok a | None => Raise e end, st).

(** [try: m  except Exception as e: h e] *)
Definition try_except {A : Type} (m : M A) (h : exn -> M A) : M A := fun st =>
  match m st with
  | (Ok a, st') => (Ok a, st')
  | (Raise e, st') => h e st'
  end.

Definition log (ev : event) : M unit := fun st =>
  (Ok (), {| _cached_paths := _cached_paths st; clock := clock st;
             trace := trace st ++ [ev] |}).

Definition set_cached_paths (paths : list string) : M unit := fun st =>
  (Ok (), {| _cached_paths := Some paths; clock := clock st;
             trace := trace st |}).

Definition get_cached_paths : M (option (list string)) := fun st =>
  (Ok (_cached_paths st), st).

(** [st'] comes after [st] without a reading of the clock: the clock is
    the same and the trace has only grown. *)
Definition extends (st st' : stream) : Prop :=
  clock st' = clock st ∧ ∃ evs, trace st' = trace st ++ evs.

(** A computation that reads no clock. *)
Definition quiet {A : Type} (m : M A) : Prop := ∀ st, extends st (m st).2.

(** ** Module-level helpers of [streams.py] *)

Definition _looks_like_glob (uri : string) : bool :=
  existsb (fun ch => contains_char ch uri) ["*"; "?"; "["; "]"]%char.

Definition _merge_types (types : gset string) (new_type : string) : gset string :=
  let types :=
    if bool_decide (new_type = "number" ∧ "integer" ∈ types)
    then types ∖ {["integer"]}
    else types in
  types ∪ {[new_type]}.

Section Values.

Variable L : pylib.

Definition _is_iso_datetime (value : pyval) : bool :=
  match value with
  | PStr s => match isoparse L s with Some _ => true | None => false end
  | _ => false
  end.

Definition _coerce_replication_value (value : pyval) : pyval :=
  match value with
  | PInt _ | PFloat _ | PBool _ | PNone => value
  | PStr s =>
      match isoparse L s with
      | Some d => PDatetime d
      | None =>
          let numeric :=
            if contains_char "." s
            then PFloat <$> float_of_str L s
            else PInt <$> int_of_str L s in
          match numeric with
          | Some n => n
          | None => value
          end
      end
  | _ => value
  end.

Definition _infer_type_from_value (value : pyval) : string :=
  match value with
  | PNone => "null"
  | PBool _ => "boolean"
  | PInt _ => "integer"
  | PFloat _ => "number"
  | PDict => "object"
  | PList => "array"
  | PStr _ => if _is_iso_datetime value then "date-time" else "string"
  | _ => "string"
  end.

End Values.

(** ** Path resolution *)

Section Paths.

Variable L : pylib.
Variable B : backend.
Variable C : stream_config.

(** The names kept from a detailed listing: the ["name"] of every entry
    whose ["type"] is ["file"]. An entry that is no mapping, or a file
    entry without a name, raises. *)
Fixpoint file_names (infos : list ls_entry) : result (list string) :=
  match infos with
  | [] => Ok []
  | LsName _ :: _ => Raise AttributeError
  | LsInfo name type :: infos' =>
      if bool_decide (type = Some "file") then
        match name with
        | None => Raise (KeyError "name")
        | Some n =>
            match file_names infos' with
            | Ok ns => Ok (n :: ns)
            | Raise e => Raise e
            end
        end
      else file_names infos'
  end.

(** The body of the [try] block of [_iter_paths]; [uri] ends in a slash. *)
Definition list_directory (uri : string) : M (list string) :=
  parsed ← lift_opt (ValueError "urlparse") (urlparse L uri);
  let scheme := url_scheme parsed in
  let netloc := url_netloc parsed in
  let remote_dir := if String.eqb (url_path parsed) "" then "/" else url_path parsed in
  let remote_dir :=
    if ends_with_char "/" remote_dir then drop_last remote_dir else remote_dir in
  _ ← log (EvListdir remote_dir);
  all_files_info ← lift (listdir_detail B uri remote_dir);
  names ←
    match all_files_info with
    | LsInfo _ _ :: _ => lift (file_names all_files_info)
    | _ =>
        _ ← log (EvListdir remote_dir);
        basenames ← lift (listdir_names B uri remote_dir);
        mret (map (fun bn => remote_dir +:+ "/" +:+ bn)
                  (List.filter (fun bn => negb (String.eqb bn "")) basenames))
    end;
  let names := map (fun n => if starts_with_char "/" n then n else "/" +:+ n) names in
  let protocol := scheme +:+ "://" in
  let full_netloc := netloc in
  mret (map (fun n => protocol +:+ full_netloc +:+ n) names).

(** [path.split('/')[-1]] *)
Definition filename (path : string) : string :=
  List.last (split "/" path) "".

(** The loop that keeps the paths whose file name the pattern finds. *)
Definition filter_paths (regex : Regex.regex) (paths : list string) : list string :=
  List.filter (fun path => search regex (filename path)) paths.

(** The candidates before the pattern filter: the sorted expansion of a
    glob, the listing of a directory (or, when listing fails, the
    directory URI itself), or the location as it is. *)
Definition candidate_paths (uri : string) (pattern : option string)
    : M (list string) :=
  if _looks_like_glob uri then
    _ ← log (EvOpenFiles uri);
    files ← lift (open_files B uri);
    mret (sorted files)
  else if truthy_str pattern then
    let uri := if ends_with_char "/" uri then uri else uri +:+ "/" in
    try_except (list_directory uri)
      (fun e =>
         _ ← log (EvWarning ("Failed to list directory " +:+ uri));
         _ ← log (EvWarning "Traceback");
         mret [uri])
  else mret [uri].

(** "Apply regex pattern filter if specified" *)
Definition apply_pattern (pattern : option string) (paths : list string)
    : M (list string) :=
  if truthy_str pattern then
    regex ← lift_opt ReError (re_compile L (default "" pattern));
    mret (filter_paths regex paths)
  else mret paths.

Definition _iter_paths : M (list string) :=
  cached ← get_cached_paths;
  match cached with
  | Some paths => mret paths
  | None =>
      match cfg_uris C with
      | Some (u :: us) =>
          _ ← set_cached_paths (u :: us);
          mret (u :: us)
      | _ =>
          if negb (truthy_str (cfg_uri C)) then
            raise (ValueError ("Stream '" +:+ cfg_name C
                               +:+ "' missing 'uri' or 'uris'"))
          else
            let uri := default "" (cfg_uri C) in
            let pattern := cfg_pattern C in
            paths ← candidate_paths uri pattern;
            paths ← apply_pattern pattern paths;
            _ ← set_cached_paths paths;
            mret paths
      end
  end.

End Paths.

(** ** Raw records *)

Section Records.

Variable L : pylib.
Variable B : backend.
Variable C : stream_config.

(** The inner loop of [_iter_records_raw] over the records of one
    resource: every record is yielded and counted, and the generator
    returns once the count has reached the limit. The result is the
    records yielded, the count, and whether the generator returned. *)
Fixpoint yield_counted (limit : option Z) (count : Z) (recs : list record)
    : list record * Z * bool :=
  match recs with
  | [] => ([], count, false)
  | rec :: recs' =>
      let count := (count + 1)%Z in
      if match limit with Some l => (l <=? count)%Z | None => false end
      then ([rec], count, true)
      else
        let '(out, count', returned) := yield_counted limit count recs' in
        (rec :: out, count', returned)
  end.

Definition supported_format (fmt : string) : bool :=
  existsb (String.eqb fmt) ["csv"; "jsonl"; "json"; "parquet"].

(** The outer loop of [_iter_records_raw]: the records yielded and the
    exception, if any, that ends the generator. *)
Fixpoint iter_resources (fmt : string) (limit : option Z) (count : Z)
    (paths : list string) : list record * option exn :=
  match paths with
  | [] => ([], None)
  | p :: paths' =>
      if supported_format fmt then
        let '(recs, err) := read_format B fmt p in
        let '(out, count, returned) := yield_counted limit count recs in
        if returned then (out, None)
        else
          match err with
          | Some e => (out, Some e)
          | None =>
              let '(out', err') := iter_resources fmt limit count paths' in
              (out ++ out', err')
          end
      else
        ([], Some (ValueError ("Unsupported format '" +:+ fmt +:+ "' for stream '"
                               +:+ cfg_name C +:+ "'")))
  end.

Definition _iter_records_raw (limit : option Z) (st : stream)
    : (list record * option exn) * stream :=
  let fmt := lower (default "csv" (cfg_format C)) in
  match (_ ← log (EvIterRecordsRaw limit); _iter_paths L B C) st with
  | (Raise e, st') => (([], Some e), st')
  | (Ok paths, st') => (iter_resources fmt limit 0 paths, st')
  end.

End Records.

(** ** Schema inference *)

Inductive type_spec :=
| TOne (t : string)
| TMany (ts : list string).

(** One entry of ["properties"]: its ["type"] and optional ["format"]. *)
Record property := { p_type : type_spec; p_format : option string }.

Definition nullable_string : property :=
  {| p_type := TMany ["string"; "null"]; p_format := None |}.

Definition nullable_date_time : property :=
  {| p_type := TMany ["string"; "null"]; p_format := Some "date-time" |}.

(** The tags a ["type"] lists. *)
Definition type_tags (t : type_spec) : list string :=
  match t with
  | TOne t => [t]
  | TMany ts => ts
  end.

Definition json_of_type (t : type_spec) : json :=
  match t with
  | TOne t => JStr t
  | TMany ts => JList (map JStr ts)
  end.

Definition json_of_property (p : property) : json :=
  JDict (("type", json_of_type (p_type p))
         :: match p_format p with
            | Some f => [("format", JStr f)]
            | None => []
            end).

Section Schema.

Variable L : pylib.
Variable B : backend.
Variable C : stream_config.

Definition primary_keys : list string := cfg_keys C.
Definition replication_key : option string := cfg_replication_key C.

(** The sampling loop: append, and leave once the limit is reached. The
    flag tells whether the loop ended in [break]. *)
Fixpoint collect_samples (limit : Z) (samples : list record) (recs : list record)
    : list record * bool :=
  match recs with
  | [] => (samples, false)
  | rec :: recs' =>
      let samples := samples ++ [rec] in
      if (limit <=? Z.of_nat (List.length samples))%Z then (samples, true)
      else collect_samples limit samples recs'
  end.

(** [for k, v in rec.items()]: one observation per field. *)
Definition observe_record (type_map : list (string * gset string)) (rec : record)
    : list (string * gset string) :=
  fold_left
    (fun type_map '(k, v) =>
       let t := _infer_type_from_value L v in
       let type_map :=
         if dict_mem k type_map then type_map else dict_set k ∅ type_map in
       dict_set k (_merge_types (default ∅ (dict_get k type_map)) t) type_map)
    rec type_map.

Definition observe_samples (samples : list record) : list (string * gset string) :=
  fold_left observe_record samples [].

(** The property emitted for one field from the tags seen for it. *)
Definition property_of_types (types : gset string) : property :=
  if bool_decide ("date-time" ∈ types) then
    if bool_decide ("null" ∈ types)
    then {| p_type := TMany ["string"; "null"]; p_format := Some "date-time" |}
    else {| p_type := TOne "string"; p_format := Some "date-time" |}
  else
    let types :=
      if bool_decide ("integer" ∈ types ∧ "number" ∈ types)
      then types ∖ {["integer"]}
      else types in
    if bool_decide (size types = 0) then nullable_string
    else if bool_decide ("null" ∈ types) then
      let non_null_types :=
        List.filter (fun t => negb (String.eqb t "null")) (sorted (elements types)) in
      match non_null_types with
      | [t] => {| p_type := TMany [t; "null"]; p_format := None |}
      | _ => {| p_type := TMany (sorted (elements types)); p_format := None |}
      end
    else
      match elements types with
      | [t] => {| p_type := TOne t; p_format := None |}
      | _ => {| p_type := TMany (sorted (elements types)); p_format := None |}
      end.

(** "Ensure replication and keys are in schema". *)
Definition ensure_replication_key (properties : list (string * property))
    : list (string * property) :=
  match replication_key with
  | Some key =>
      if negb (String.eqb key "") && negb (dict_mem key properties) then
        if String.eqb key "_sdc_extracted_at"
        then dict_set key nullable_date_time properties
        else dict_set key nullable_string properties
      else properties
  | None => properties
  end.

Definition ensure_primary_keys (properties : list (string * property))
    : list (string * property) :=
  fold_left
    (fun properties pk =>
       if dict_mem pk properties then properties
       else dict_set pk nullable_string properties)
    primary_keys properties.

(** The required-fields loop. *)
Fixpoint required_of (properties : list (string * property)) : list string :=
  match properties with
  | [] => []
  | (field_name, field_schema) :: properties' =>
      if String.eqb field_name "_sdc_extracted_at" then required_of properties'
      else
        match p_type field_schema with
        | TOne _ => field_name :: required_of properties'
        | TMany field_type =>
            if bool_decide ("null" ∈ field_type) then required_of properties'
            else field_name :: required_of properties'
        end
  end.

Definition properties_of_samples (samples : list record) : list (string * property) :=
  let properties :=
    map (fun '(k, types) => (k, property_of_types types)) (observe_samples samples) in
  ensure_primary_keys (ensure_replication_key properties).

(** The schema built from the sampled records. *)
Definition schema_of_samples (samples : list record) : json :=
  let properties := properties_of_samples samples in
  let required_fields := required_of properties in
  JDict ([("type", JStr "object");
          ("additionalProperties", JBool true);
          ("properties",
           JDict (map (fun '(k, p) => (k, json_of_property p)) properties))]
         ++ match required_fields with
            | [] => []
            | _ => [("required", JList (map JStr required_fields))]
            end).

Definition _infer_schema : M json := fun st =>
  let limit := default 2000%Z (cfg_infer_samples C) in
  let '((recs, err), st') := _iter_records_raw L B C (Some limit) st in
  let '(samples, broke) := collect_samples limit [] recs in
  if broke then (Ok (schema_of_samples samples), st')
  else
    match err with
    | Some e => (Raise e, st')
    | None => (Ok (schema_of_samples samples), st')
    end.

(** The [schema] property. *)
Definition schema : M json :=
  match cfg_schema C with
  | Some explicit => if json_truthy explicit then mret explicit else _infer_schema
  | None => _infer_schema
  end.

End Schema.

(** ** Singer-SDK integration: [get_records] *)

Section Sync.

Variable L : pylib.
Variable B : backend.
Variable C : stream_config.

(** [start_val_cmp]: a string cursor is tried as a datetime and is
    otherwise left as it is; any other cursor is used as it is. *)
Definition start_val_cmp (start_val : cursor) : cursor :=
  match start_val with
  | CStr s =>
      match isoparse L s with
      | Some d => CDatetime d
      | None => start_val
      end
  | _ => start_val
  end.

(** "Add extraction timestamp if using _sdc_extracted_at as replication key" *)
Definition stamp (key : option string) (extraction_time : string) (rec : record)
    : record :=
  if bool_decide (key = Some "_sdc_extracted_at")
  then dict_set "_sdc_extracted_at" (PStr extraction_time) rec
  else rec.

(** One turn of the loop of [get_records]: [Ok (Some r)] yields [r],
    [Ok None] is the [continue], [Raise] leaves the generator. *)
Definition process_record (key : option string) (start_val : option cursor)
    (extraction_time : string) (rec : record) : result (option record) :=
  let rec := stamp key extraction_time rec in
  match (if truthy_str key then start_val else None) with
  | Some start_val =>
      let rv := _coerce_replication_value L
                  (default PNone (dict_get (default "" key) rec)) in
      match rv with
      | PNone => Ok (Some rec)
      | _ =>
          match py_le rv (start_val_cmp start_val) with
          | Raise e => Raise e
          | Ok true => Ok None
          | Ok false => Ok (Some rec)
          end
      end
  | None => Ok (Some rec)
  end.

(** The value the filter compares: the coerced replication-key value of
    the record as stamped. *)
Definition replication_value (key : option string) (extraction_time : string)
    (rec : record) : pyval :=
  _coerce_replication_value L
    (default PNone (dict_get (default "" key) (stamp key extraction_time rec))).

(** Whether a record with a null or an ordered key value passes the
    cursor [c]. *)
Definition admitted (key : option string) (c : cursor) (extraction_time : string)
    (rec : record) : bool :=
  match replication_value key extraction_time rec with
  | PNone => true
  | v => match py_gt v (start_val_cmp c) with Ok b => b | Raise _ => false end
  end.

(** The loop of [get_records] over the raw records, [err] being the
    exception that ends the raw iterator, if any. *)
Fixpoint emit_records (key : option string) (start_val : option cursor)
    (extraction_time : string) (recs : list record) (err : option exn)
    : list record * option exn :=
  match recs with
  | [] => ([], err)
  | rec :: recs' =>
      match process_record key start_val extraction_time rec with
      | Raise e => ([], Some e)
      | Ok None => emit_records key start_val extraction_time recs' err
      | Ok (Some rec) =>
          let '(out, err') := emit_records key start_val extraction_time recs' err in
          (rec :: out, err')
      end
  end.

(** [datetime.utcnow().isoformat()]: one more reading of the clock. *)
Definition utcnow : M string := fun st =>
  (Ok (utcnow_isoformat B (clock st)),
   {| _cached_paths := _cached_paths st; clock := S (clock st);
      trace := trace st ++ [EvUtcnow] |}).

Definition get_records (st : stream) : (list record * option exn) * stream :=
  let key := replication_key C in
  let start_val :=
    if truthy_str key then starting_replication_key_value B else None in
  match utcnow st with
  | (Raise e, st') => (([], Some e), st')
  | (Ok now, st') =>
      let extraction_time := now +:+ "Z" in
      let '((recs, err), st'') := _iter_records_raw L B C None st' in
      (emit_records key start_val extraction_time recs err, st'')
  end.

End Sync.

(** ** Instances to run the definitions on *)

Module Sample.

Definition dt (aware : bool) (micros : Z) : datetime :=
  {| dt_aware := aware; dt_micros := micros |}.

(** Microseconds since the epoch of 2024-01-01T00:00:00Z. *)
Definition t2024 : Z := 1704067200000000.

(** [isoparse] on the timestamps used below; every other string used
    below is no ISO-8601 timestamp. *)
Definition sample_isoparse (s : string) : option datetime :=
  if String.eqb s "2024-01-01T00:00:00Z" then Some (dt true t2024)
  else if String.eqb s "2024-01-01T10:00:00Z" then Some (dt true (t2024 + 36000000000))
  else if String.eqb s "2024-01-02T00:00:00Z" then Some (dt true (t2024 + 86400000000))
  else if String.eqb s "2024-06-01T12:00:00.000500Z"
       then Some (dt true (t2024 + 13176000000500))
  else None.

Definition digit_of (a : ascii) : option Z :=
  let n := nat_of_ascii a in
  if ((48 <=? n) && (n <=? 57))%nat then Some (Z.of_nat (n - 48)) else None.

Fixpoint digits (acc : Z) (s : string) : option Z :=
  match s with
  | EmptyString => Some acc
  | String a s' =>
      match digit_of a with
      | Some d => digits (10 * acc + d) s'
      | None => None
      end
  end.

(** [int] on an optional sign followed by decimal digits. *)
Definition sample_int (s : string) : option Z :=
  match s with
  | EmptyString => None
  | String "-" (String a s') => Z.opp <$> digits 0 (String a s')
  | String "+" (String a s') => digits 0 (String a s')
  | _ => digits 0 s
  end.

(** [float] on the decimals used below. *)
Definition sample_float (s : string) : option pyfloat :=
  if String.eqb s "1.5" then Some (FFin 3 (-1))
  else if String.eqb s "2.0" then Some (FFin 2 0)
  else if String.eqb s "0.25" then Some (FFin 1 (-2))
  else None.

(** [re.compile] on the patterns used below. *)
Definition sample_compile (p : string) : option regex :=
  if String.eqb p "csv" then Some (Lit "csv")
  else if String.eqb p "\.csv$" then Some (Cat (Lit ".csv") Eol)
  else if String.eqb p ".*" then Some (Star Dot)
  else if String.eqb p "^data" then Some (Cat Bol (Lit "data"))
  else None.

(** [urlparse] on the locations used below. *)
Definition sample_urlparse (u : string) : option url :=
  if String.eqb u "sftp://host/inbox/"
  then Some {| url_scheme := "sftp"; url_netloc := "host"; url_path := "/inbox/" |}
  else if String.eqb u "data/"
  then Some {| url_scheme := ""; url_netloc := ""; url_path := "data/" |}
  else None.

Definition lib : pylib :=
  {| isoparse := sample_isoparse;
     int_of_str := sample_int;
     float_of_str := sample_float;
     re_compile := sample_compile;
     urlparse := sample_urlparse |}.

(** A backend whose storage calls all fail and whose resources are empty. *)
Definition offline : backend :=
  {| open_files := fun _ => Raise (IOError "open_files");
     listdir_detail := fun _ _ => Raise (IOError "listdir");
     listdir_names := fun _ _ => Raise (IOError "listdir");
     read_format := fun _ _ => ([], None);
     utcnow_isoformat := fun _ => "2024-06-01T12:00:00.000500";
     starting_replication_key_value := None |}.

(** A backend that lists [infos] for every directory. *)
Definition listing (infos : list ls_entry) : backend :=
  {| open_files := fun _ => Raise (IOError "open_files");
     listdir_detail := fun _ _ => Ok infos;
     listdir_names := fun _ _ => Raise (IOError "listdir");
     read_format := fun _ _ => ([], None);
     utcnow_isoformat := fun _ => "2024-06-01T12:00:00.000500";
     starting_replication_key_value := None |}.

(** A backend that reads [recs] from every resource, with the cursor
    [cur] on record and a clock that shows a later time at each reading. *)
Definition reading (recs : list record) (cur : option cursor) : backend :=
  {| open_files := fun _ => Raise (IOError "open_files");
     listdir_detail := fun _ _ => Raise (IOError "listdir");
     listdir_names := fun _ _ => Raise (IOError "listdir");
     read_format := fun _ _ => (recs, None);
     utcnow_isoformat := fun n =>
       match n with
       | O => "2024-06-01T12:00:00.000500"
       | _ => "2024-06-01T12:00:01"
       end;
     starting_replication_key_value := cur |}.

Definition config (uri : option string) (uris : option (list string))
    (pattern : option string) (schema : option json) (key : option string)
    : stream_config :=
  {| cfg_name := "example";
     cfg_uri := uri;
     cfg_uris := uris;
     cfg_pattern := pattern;
     cfg_format := Some "csv";
     cfg_schema := schema;
     cfg_replication_key := key;
     cfg_keys := ["id"];
     cfg_infer_samples := None |}.

(** Streams used in the statements below. *)
Definition explicit_list_stream : stream_config :=
  config None (Some ["a.txt"; "b.csv"]) (Some "csv") None None.

Definition directory_stream : stream_config :=
  config (Some "sftp://host/inbox") None (Some "\.csv$") None None.

Definition inbox : list ls_entry :=
  [LsInfo (Some "/inbox/b.csv") (Some "file");
   LsInfo (Some "/inbox/notes.txt") (Some "file");
   LsInfo (Some "/inbox/old") (Some "directory");
   LsInfo (Some "/inbox/a.csv") (Some "file")].

Definition rows : list record :=
  [[("id", PInt 1); ("amount", PFloat (FFin 3 (-1)))];
   [("id", PInt 2); ("amount", PInt 3)]].

(** A stream whose configured schema is the empty object. *)
Definition empty_schema_stream : stream_config :=
  config (Some "data.csv") None None (Some (JDict [])) None.

Definition explicit_schema : json :=
  JDict [("type", JStr "object");
         ("properties", JDict [("id", JDict [("type", JList [JStr "string"])])])].

Definition explicit_schema_stream : stream_config :=
  config (Some "data.csv") None None (Some explicit_schema) None.

Definition stamped_stream : stream_config :=
  config (Some "data.csv") None None None (Some "_sdc_extracted_at").

End Sample.

(** ** The tabular reader: [_iter_csv] *)

(** What the reader calls: [smart_open(path, "rb").read()], and
    [pandas.read_csv] on the content with a chunk size (or none) and the
    options, its rows taken as records in order; reading may end in an
    exception. *)
Record csv_backend := {
  smart_open_read : string -> result string;
  pd_read_csv :
    string -> option Z -> list (string * pyval) -> list record * option exn;
}.

(** The content cache of a stream, and the paths opened so far. *)
Record csv_stream := {
  _cached_file_contents : gmap string string;
  opened : list string;
}.

(** "Convert boolean header values to pandas-compatible format" *)
Definition csv_options (opts : list (string * pyval)) : list (string * pyval) :=
  match dict_get "header" opts with
  | Some (PBool true) => dict_set "header" (PInt 0) opts
  | Some (PBool false) => dict_set "header" PNone opts
  | _ => opts
  end.

(** "Sanitize non-finite float values to None for JSON compliance" *)
Definition sanitize_value (v : pyval) : pyval :=
  match v with
  | PFloat FNan | PFloat (FInf _) => PNone
  | _ => v
  end.

Definition sanitize_record (rec : record) : record :=
  fold_left (fun sanitized_rec '(k, v) => dict_set k (sanitize_value v) sanitized_rec)
            rec [].

(** The records of a content: read in chunks when the chunk size is
    positive, at once otherwise, and sanitized either way. *)
Definition csv_records (X : csv_backend) (chunksize : Z)
    (opts : list (string * pyval)) (file_content : string)
    : list record * option exn :=
  let '(recs, err) :=
    if (0 <? chunksize)%Z
    then pd_read_csv X file_content (Some chunksize) opts
    else pd_read_csv X file_content None opts in
  (map sanitize_record recs, err).

Definition _iter_csv (X : csv_backend) (csv : option (list (string * pyval)))
    (chunksize : option Z) (path : string) (st : csv_stream)
    : (list record * option exn) * csv_stream :=
  let opts := csv_options (default [] csv) in
  let chunksize := default 50000%Z chunksize in
  let fetched :=
    match _cached_file_contents st !! path with
    | Some file_content => (Ok file_content, st)
    | None =>
        match smart_open_read X path with
        | Ok file_content =>
            (Ok file_content,
             {| _cached_file_contents := <[path := file_content]> (_cached_file_contents st);
                opened := opened st ++ [path] |})
        | Raise e =>
            (Raise e,
             {| _cached_file_contents := _cached_file_contents st;
                opened := opened st ++ [path] |})
        end
    end in
  match fetched with
  | (Raise e, st') => (([], Some e), st')
  | (Ok file_content, st') => (csv_records X chunksize opts file_content, st')
  end.

(** ** Connection options: [_storage_options] *)

Inductive option_value :=
| OptStr (s : string)
| OptInt (z : Z)
| OptDict (kvs : list (string * string)).

(** The parts of a parsed URI that the options are taken from. *)
Record netloc := {
  nl_hostname : option string;
  nl_port : option Z;
  nl_username : option string;
  nl_password : option string;
}.

(** [opts[k] = auth[name]] when [auth.get(name)] is a non-empty string. *)
Definition set_from_auth (auth : list (string * string)) (name k : string)
    (opts : list (string * option_value)) : list (string * option_value) :=
  match dict_get name auth with
  | Some s => if String.eqb s "" then opts else dict_set k (OptStr s) opts
  | None => opts
  end.

Definition _storage_options (urlparse_netloc : string -> option netloc)
    (unquote : string -> string) (auth : option (list (string * string)))
    (uri : string) : result (list (string * option_value)) :=
  let auth := default [] auth in
  let scheme := lower (List.hd "" (split ":" uri)) in
  let opts := [] in
  if String.eqb scheme "s3" then
    let opts := set_from_auth auth "aws_profile" "profile" opts in
    let opts := set_from_auth auth "aws_access_key_id" "key" opts in
    let opts := set_from_auth auth "aws_secret_access_key" "secret" opts in
    let opts := set_from_auth auth "aws_session_token" "token" opts in
    let opts :=
      match dict_get "aws_region" auth with
      | Some r =>
          if String.eqb r "" then opts
          else dict_set "client_kwargs" (OptDict [("region_name", r)]) opts
      | None => opts
      end in
    Ok opts
  else if String.eqb scheme "sftp" then
    match urlparse_netloc uri with
    | None => Raise (ValueError "urlparse")
    | Some parsed =>
        let opts :=
          match nl_hostname parsed with
          | Some h => if String.eqb h "" then opts else dict_set "host" (OptStr h) opts
          | None => opts
          end in
        let opts :=
          match nl_port parsed with
          | Some n => if (n =? 0)%Z then opts else dict_set "port" (OptInt n) opts
          | None => opts
          end in
        let opts :=
          match nl_username parsed with
          | Some u => if String.eqb u "" then opts else dict_set "username" (OptStr u) opts
          | None => opts
          end in
        let opts :=
          match nl_password parsed with
          | Some pw =>
              if String.eqb pw "" then opts
              else dict_set "password" (OptStr (unquote pw)) opts
          | None => opts
          end in
        Ok opts
    end
  else Ok opts.

(** ** The line-delimited reader: [_iter_jsonl] *)






(** ** Notions used to state further properties *)

(** A computation that leaves the path cache as it found it. *)
Definition cache_kept {A : Type} (m : M A) : Prop :=
  ∀ st, _cached_paths (m st).2 = _cached_paths st.

(** Whether the required-fields loop takes a field with this property:
    a single type, or a list of types without ["null"]. *)
Definition requires (p : property) : bool :=
  match p_type p with
  | TOne _ => true
  | TMany field_type => negb (bool_decide ("null" ∈ field_type))
  end.

(** The ["required"] list of a schema, empty when the key is missing. *)
Definition schema_required (j : json) : list json :=
  match json_field "required" j with
  | Some (JList l) => l
  | _ => []
  end.

(** The type names of JSON Schema. *)
Definition json_type_names : list string :=
  ["string"; "null"; "boolean"; "integer"; "number"; "object"; "array"].

(** What sampling has seen of a field: the values under key [k] in the
    records sampled. *)
Definition seen (k : string) (v : pyval) (samples : list record) : Prop :=
  ∃ rec, rec ∈ samples ∧ (k, v) ∈ rec.

(** What the accumulated tags say about the fields observed so far: the
    keys are distinct; a key is present exactly when a field of that name
    was observed; its tags are the classes of observed values, not all of
    them in general, but ["null"] exactly when a [None] was observed. *)
Definition observes (L : pylib) (type_map : list (string * gset string))
    (fields : list (string * pyval)) : Prop :=
  NoDup type_map.*1 ∧
  ∀ k,
    match dict_get k type_map with
    | None => ∀ v, (k, v) ∉ fields
    | Some types =>
        types ≠ ∅ ∧
        (∀ t, t ∈ types -> ∃ v, (k, v) ∈ fields ∧ t = _infer_type_from_value L v) ∧
        ("null" ∈ types ↔ (k, PNone) ∈ fields)
    end.

(** ** Further instances *)

Module Cases.

(** A backend whose glob expansion returns [files]. *)
Definition globbing (files : list string) : backend :=
  {| open_files := fun _ => Ok files;
     listdir_detail := fun _ _ => Raise (IOError "listdir");
     listdir_names := fun _ _ => Raise (IOError "listdir");
     read_format := fun _ _ => ([], None);
     utcnow_isoformat := fun _ => "2024-06-01T12:00:00.000500";
     starting_replication_key_value := None |}.

Definition glob_stream : stream_config :=
  Sample.config (Some "data/*.csv") None None None None.

(** A directory location with a pattern that matches every name. *)
Definition unlisted_stream : stream_config :=
  Sample.config (Some "sftp://host/inbox") None (Some ".*") None None.

Definition inbox_url : url :=
  {| url_scheme := "sftp"; url_netloc := "host"; url_path := "/inbox/" |}.

Definition inbox_resolved : stream :=
  {| _cached_paths := Some ["sftp://host/inbox/b.csv"; "sftp://host/inbox/a.csv"];
     clock := 0;
     trace := [EvListdir "/inbox"] |}.

End Cases.

Module Tabular.

Definition nan_row : record := [("id", PInt 1); ("amount", PFloat FNan)].
Definition plain_row : record := [("id", PInt 2); ("amount", PFloat (FFin 3 (-1)))].
Definition inf_row : record := [("id", PInt 3); ("amount", PFloat (FInf false))].

(** A storage with the one file [data.csv], read as three rows. *)
Definition one_file : csv_backend :=
  {| smart_open_read := fun path =>
       if String.eqb path "data.csv" then Ok "id,amount"
       else Raise (IOError "open");
     pd_read_csv := fun _ _ _ => ([nan_row; plain_row; inf_row], None) |}.

Definition nothing_read : csv_stream :=
  {| _cached_file_contents := ∅; opened := [] |}.

Definition aws_auth : list (string * string) :=
  [("aws_access_key_id", "AKIA"); ("aws_secret_access_key", "s3cr3t");
   ("aws_region", "")].

End Tabular.

(** * Properties *)

(** ** The matcher computes the matches *)

Section RegexFacts.

Variable s : list ascii.

Lemma matches_bounds r i j :
  matches s r i j -> i ≤ j ∧ (j = i ∨ j ≤ List.length s).
Proof.
  induction 1 as [ | p i c Hc _ | | | | | r1 r2 i j k _ [IH1 IH1'] _ [IH2 IH2']
                 | | r i j k _ [IH1 IH1'] _ [IH2 IH2'] ]; try lia.
  - apply lookup_lt_Some in Hc. lia.
Qed.

Lemma closure_incl f n : ∀ X x, x ∈ X -> x ∈ closure f n X.
Proof.
  induction n as [|n IH]; intros X x Hx; simpl; [done|].
  apply IH. set_solver.
Qed.

Lemma closure_mono f n : ∀ X Y, X ⊆ Y -> closure f n X ⊆ closure f n Y.
Proof.
  induction n as [|n IH]; intros X Y HXY; simpl; [done|].
  apply IH. intros x [Hx|Hx]%elem_of_app; apply elem_of_app.
  - left. by apply HXY.
  - right. apply list_elem_of_bind in Hx as (y & Hxy & Hy).
    apply list_elem_of_bind. exists y. split; [done|]. by apply HXY.
Qed.

Lemma closure_step f n X i j :
  i ∈ X -> j ∈ f i -> closure f n [j] ⊆ closure f (S n) X.
Proof.
  intros Hi Hj. simpl. apply closure_mono.
  intros x Hx%list_elem_of_singleton. subst x.
  apply elem_of_app. right. apply list_elem_of_bind. eauto.
Qed.

Lemma star_snoc r a b c :
  matches s (Star r) a b -> matches s r b c -> matches s (Star r) a c.
Proof.
  intros H. remember (Star r) as q eqn:Hq. revert Hq.
  induction H as [ | | | | | | | r' i | r' i j k H1 _ H2 IH2 ];
    intros Hq Hbc; try discriminate Hq; injection Hq as ->.
  - eapply M_StarS; [exact Hbc | apply M_Star0].
  - eapply M_StarS; [exact H1 | by apply IH2].
Qed.

Lemma star_progress r i k :
  matches s (Star r) i k ->
  k = i ∨ ∃ j, i < j ∧ matches s r i j ∧ matches s (Star r) j k.
Proof.
  intros H. remember (Star r) as q eqn:Hq. revert Hq.
  induction H as [ | | | | | | | r' i | r' i j k H1 _ H2 IH2 ];
    intros Hq; try discriminate Hq; injection Hq as ->.
  - by left.
  - destruct (decide (i = j)) as [->|Hne].
    + by apply IH2.
    + right. exists j. apply matches_bounds in H1 as H1'.
      split_and!; [lia | done | done].
Qed.

Lemma closure_sound r f :
  (∀ a b, b ∈ f a -> matches s r a b) ->
  ∀ n X k, k ∈ closure f n X -> ∃ x, x ∈ X ∧ matches s (Star r) x k.
Proof.
  intros Hf. induction n as [|n IH]; intros X k Hk; simpl in Hk.
  - exists k. split; [done | apply M_Star0].
  - apply IH in Hk as (x & [Hx|Hx]%elem_of_app & Hxk); [by eauto|].
    apply list_elem_of_bind in Hx as (y & Hxy & Hy).
    exists y. split; [done|]. eapply M_StarS; [by apply Hf | done].
Qed.

Lemma closure_complete r f :
  (∀ a b, matches s r a b -> b ∈ f a) ->
  ∀ n i k, k - i ≤ n -> matches s (Star r) i k -> k ∈ closure f n [i].
Proof.
  intros Hf. induction n as [|n IH]; intros i k Hn Hik.
  - apply matches_bounds in Hik. simpl. apply list_elem_of_singleton. lia.
  - destruct (star_progress _ _ _ Hik) as [->|(j & Hij & H1 & H2)].
    + apply closure_incl. by apply list_elem_of_singleton.
    + eapply closure_step; [by apply list_elem_of_singleton | by apply Hf |].
      apply IH; [lia | done].
Qed.

Lemma ends_spec r : ∀ i j, j ∈ ends r s i ↔ matches s r i j.
Proof.
  induction r as [ | | p | | | r1 IH1 r2 IH2 | r1 IH1 r2 IH2 | r IH ];
    intros i j; cbn [ends].
  - split; [by intros ?%not_elem_of_nil | inversion 1].
  - rewrite list_elem_of_singleton. split; [intros ->; constructor | by inversion 1].
  - destruct (s !! i) as [c|] eqn:Hc; [destruct (p c) eqn:Hp|].
    + rewrite list_elem_of_singleton.
      split; [intros ->; by econstructor | by inversion 1].
    + split; [by intros ?%not_elem_of_nil | inversion 1; congruence].
    + split; [by intros ?%not_elem_of_nil | inversion 1; congruence].
  - destruct (i =? 0)%nat eqn:Hi.
    + apply Nat.eqb_eq in Hi as ->. rewrite list_elem_of_singleton.
      split; [intros ->; constructor | by inversion 1].
    + apply Nat.eqb_neq in Hi.
      split; [by intros ?%not_elem_of_nil | inversion 1; congruence].
  - destruct (at_end s i) eqn:Hi.
    + rewrite list_elem_of_singleton.
      split; [intros ->; by constructor | by inversion 1].
    + split; [by intros ?%not_elem_of_nil | inversion 1; congruence].
  - rewrite elem_of_app, IH1, IH2.
    split; [intros [?|?]; by constructor | inversion 1; auto].
  - rewrite list_elem_of_bind. split.
    + intros (k & Hk2 & Hk1). apply IH2 in Hk2. apply IH1 in Hk1.
      by econstructor.
    + inversion 1; subst. eexists. split; [by apply IH2 | by apply IH1].
  - split.
    + intros (x & ->%list_elem_of_singleton & Hx)%(closure_sound r); [done|].
      intros a b. apply IH.
    + intros H. apply matches_bounds in H as Hb.
      apply (closure_complete r); [intros a b; apply IH | lia | done].
Qed.

End RegexFacts.

(** [search] answers whether some span of the subject matches. *)
Lemma search_spec r (t : string) :
  let l := String.list_ascii_of_string t in
  search r t = true ↔ ∃ i j, i ≤ j ≤ List.length l ∧ matches l r i j.
Proof.
  intros l. unfold search. fold l. rewrite existsb_exists. split.
  - intros (i & Hi%in_seq & He).
    destruct (ends r l i) as [|j l'] eqn:Hends; [done|].
    assert (Hm : matches l r i j).
    { apply ends_spec. rewrite Hends. by left. }
    exists i, j. split; [|done].
    apply matches_bounds in Hm. lia.
  - intros (i & j & Hij & Hm). exists i. split; [apply in_seq; lia|].
    apply ends_spec in Hm.
    destruct (ends r l i); [by apply not_elem_of_nil in Hm | done].
Qed.

Lemma fullmatch_spec r (t : string) :
  let l := String.list_ascii_of_string t in
  fullmatch r t = true ↔ matches l r 0 (List.length l).
Proof.
  intros l. unfold fullmatch. fold l.
  rewrite bool_decide_eq_true. apply ends_spec.
Qed.

(** ** Splitting at a separator *)

Lemma split_nonempty c s : split c s ≠ [].
Proof.
  destruct s as [|a s]; simpl; [done|].
  destruct (Ascii.eqb a c); [done|]. by destruct (split c s).
Qed.

Lemma split_no_sep c s : contains_char c s = false -> split c s = [s].
Proof.
  induction s as [|a s IH]; [done|]. simpl.
  destruct (Ascii.eqb a c); [done|]. intros H. by rewrite IH.
Qed.

Lemma split_app_sep c s1 s2 :
  split c (s1 +:+ String c s2) = split c s1 ++ split c s2.
Proof.
  induction s1 as [|a s1 IH]; simpl.
  - by rewrite Ascii.eqb_refl.
  - rewrite IH. destruct (Ascii.eqb a c); [done|].
    pose proof (split_nonempty c s1). by destruct (split c s1).
Qed.

Lemma ends_with_char_inv c s :
  ends_with_char c s = true -> ∃ s0, s = s0 +:+ String c "".
Proof.
  induction s as [|a s IH]; [done|]. destruct s as [|b s].
  - simpl. intros ->%Ascii.eqb_eq. by exists "".
  - intros H. destruct (IH H) as [s0 Hs0]. exists (String a s0).
    exact (f_equal (String a) Hs0).
Qed.

Lemma string_app_assoc (a b c : string) : (a +:+ b) +:+ c = a +:+ (b +:+ c).
Proof. induction a as [|x a IH]; [done|]. exact (f_equal (String x) IH). Qed.

(** The last piece has no separator in it, and the string is that piece
    after a prefix that is empty or ends in the separator. *)
Lemma split_last c s :
  contains_char c (List.last (split c s) "") = false ∧
  ∃ dir, s = dir +:+ List.last (split c s) "" ∧
    ((dir = "" ∧ split c s = [s]) ∨
     (ends_with_char c dir = true ∧ ∃ h x t, split c s = h :: x :: t)).
Proof.
  induction s as [|a s (IHc & dir & Hs & IH)].
  { split; [done|]. exists "". split; [done|]. by left. }
  cbn [split]. destruct (Ascii.eqb a c) eqn:Hac.
  - assert (Hlast : List.last ("" :: split c s) "" = List.last (split c s) "").
    { destruct IH as [[_ ->]|(_ & h & x & t & ->)]; done. }
    rewrite Hlast. split; [done|].
    exists (String a dir). split; [exact (f_equal (String a) Hs)|]. right. split.
    + destruct dir as [|b dir]; [simpl; exact Hac|].
      destruct IH as [[? _]|[Hd _]]; [done|]. exact Hd.
    + destruct IH as [[_ ->]|(_ & h & x & t & ->)]; eauto.
  - destruct IH as [[-> Hsp]|(Hd & h & x & t & Hsp)]; rewrite Hsp in *.
    + simpl in *. rewrite Hac. split; [done|].
      exists "". split; [done|]. by left.
    + split; [exact IHc|].
      exists (String a dir). split; [exact (f_equal (String a) Hs)|]. right. split.
      * destruct dir as [|b dir]; [done|]. exact Hd.
      * eauto.
Qed.

(** A name without a slash is the file name of every path that ends in
    it after a slash, and of itself. *)
Lemma filename_of_segments dir base :
  contains_char "/" base = false ->
  dir = "" ∨ ends_with_char "/" dir = true ->
  filename (dir +:+ base) = base.
Proof.
  intros Hb [->|[d0 ->]%ends_with_char_inv]; unfold filename.
  - simpl. by rewrite split_no_sep.
  - rewrite string_app_assoc. change (String "/" "" +:+ base) with (String "/" base).
    rewrite split_app_sep, (split_no_sep _ base) by done.
    by rewrite last_last.
Qed.

(** ** Path resolution *)

Section PathFacts.

Variable L : pylib.
Variable B : backend.
Variable C : stream_config.

Lemma bind_ok {A B' : Type} (m : M A) (f : A -> M B') st a st' :
  m st = (Ok a, st') -> (m ≫= f) st = f a st'.
Proof. intros H. unfold mbind, M_bind. by rewrite H. Qed.

Lemma bind_raise {A B' : Type} (m : M A) (f : A -> M B') st e st' :
  m st = (Raise e, st') -> (m ≫= f) st = (Raise e, st').
Proof. intros H. unfold mbind, M_bind. by rewrite H. Qed.

(** The first resolution of a stream without an explicit list. *)
Lemma iter_paths_fresh st uri :
  _cached_paths st = None ->
  cfg_uris C = None ∨ cfg_uris C = Some [] ->
  cfg_uri C = Some uri -> uri ≠ "" ->
  _iter_paths L B C st =
  (paths ← candidate_paths L B uri (cfg_pattern C);
   paths ← apply_pattern L (cfg_pattern C) paths;
   _ ← set_cached_paths paths;
   mret paths) st.
Proof.
  intros Hc Hu Huri Hne. unfold _iter_paths.
  rewrite (bind_ok get_cached_paths _ st None st)
    by (unfold get_cached_paths; by rewrite Hc).
  assert (Ht : truthy_str (cfg_uri C) = true).
  { rewrite Huri. simpl. apply negb_true_iff, String.eqb_neq. exact Hne. }
  rewrite Ht, Huri. simpl.
  by destruct Hu as [-> | ->].
Qed.

Lemma apply_pattern_compiled pattern regex paths st :
  truthy_str pattern = true ->
  re_compile L (default "" pattern) = Some regex ->
  apply_pattern L pattern paths st = (Ok (filter_paths regex paths), st).
Proof.
  intros Ht Hc. unfold apply_pattern. rewrite Ht.
  unfold mbind, M_bind, lift_opt. by rewrite Hc.
Qed.

Lemma split_trailing c s :
  ends_with_char c s = true ->
  ∃ h x t, split c s = h :: x :: t ∧ List.last (x :: t) "" = "".
Proof.
  induction s as [|a s IH]; [done|]. intros H.
  destruct s as [|b s'].
  - simpl in H. exists "", "", []. simpl. by rewrite H.
  - destruct (IH H) as (h & x & t & Hs & Hl).
    cbn [split] in Hs |- *. rewrite Hs.
    destruct (Ascii.eqb a c).
    + exists "", h, (x :: t). split; [done|]. exact Hl.
    + exists (String a h), x, t. by split.
Qed.

(** A path that ends in the separator has the empty file name. *)
Lemma filename_trailing_slash path :
  ends_with_char "/" path = true -> filename path = "".
Proof.
  intros (h & x & t & Hs & Hl)%split_trailing.
  unfold filename. rewrite Hs. exact Hl.
Qed.

Lemma ends_with_char_snoc c s : ends_with_char c (s +:+ String c "") = true.
Proof.
  induction s as [|a s IH]; simpl; [apply Ascii.eqb_refl|].
  destruct (s +:+ String c "") eqn:E; [by destruct s|]. exact IH.
Qed.

(** The directory URI handed to the listing ends in a slash. *)
Lemma directory_uri_trailing_slash uri :
  ends_with_char "/" (if ends_with_char "/" uri then uri else uri +:+ "/") = true.
Proof.
  destruct (ends_with_char "/" uri) eqn:E; [done|]. apply ends_with_char_snoc.
Qed.

(** C6 (as amended). When the location is taken as a directory and
    listing it fails, resolution does not raise: the failure is logged,
    one candidate stands in for the location, and this candidate goes
    through the pattern filter like any other, so that the resolved (and
    cached) list is that candidate alone or is empty. *)
Theorem listing_failure_falls_back st uri regex e st1 :
  let uri' := if ends_with_char "/" uri then uri else uri +:+ "/" in
  _cached_paths st = None ->
  cfg_uris C = None ∨ cfg_uris C = Some [] ->
  cfg_uri C = Some uri -> uri ≠ "" ->
  _looks_like_glob uri = false ->
  truthy_str (cfg_pattern C) = true ->
  re_compile L (default "" (cfg_pattern C)) = Some regex ->
  list_directory L B uri' st = (Raise e, st1) ->
  ∃ paths,
    _iter_paths L B C st
    = (Ok paths,
       {| _cached_paths := Some paths;
          clock := clock st1;
          trace := trace st1 ++ [EvWarning ("Failed to list directory " +:+ uri');
                                 EvWarning "Traceback"] |}) ∧
    paths = List.filter (fun path => search regex (filename path)) [uri'] ∧
    (paths = [uri'] ∨ paths = []).
Proof.
  intros uri' Hc Hu Huri Hne Hg Hp Hre Hl.
  exists (List.filter (fun path => search regex (filename path)) [uri']).
  split_and!; [|done|simpl; destruct (search regex (filename uri')); auto].
  rewrite (iter_paths_fresh st uri) by done.
  unfold candidate_paths. rewrite Hg, Hp. fold uri'.
  unfold try_except, mbind, M_bind at 1 2. rewrite Hl. simpl.
  rewrite apply_pattern_compiled with (regex := regex) by done. simpl.
  by rewrite <- app_assoc.
Qed.

(** The candidates of a directory follow the listing: one URI per file
    entry, in the order of the entries. *)
Lemma directory_candidates_follow_listing st uri parsed infos names :
  let uri' := if ends_with_char "/" uri then uri else uri +:+ "/" in
  let remote_dir :=
    let d := if String.eqb (url_path parsed) "" then "/" else url_path parsed in
    if ends_with_char "/" d then drop_last d else d in
  _looks_like_glob uri = false ->
  truthy_str (cfg_pattern C) = true ->
  urlparse L uri' = Some parsed ->
  listdir_detail B uri' remote_dir = Ok infos ->
  (∃ n t infos', infos = LsInfo n t :: infos') ->
  file_names infos = Ok names ->
  (candidate_paths L B uri (cfg_pattern C) st).1 =
  Ok (map (fun n => (url_scheme parsed +:+ "://") +:+ url_netloc parsed
                    +:+ (if starts_with_char "/" n then n else "/" +:+ n)) names).
Proof.
  intros uri' remote_dir Hg Hp Hurl Hls (n & t & infos' & ->) Hnames.
  unfold candidate_paths. rewrite Hg, Hp. fold uri'.
  unfold try_except, list_directory, mbind, M_bind, lift_opt, lift, log, mret, M_ret.
  rewrite Hurl. fold remote_dir. rewrite Hls. cbn -[file_names].
  rewrite Hnames. cbn. by rewrite map_map.
Qed.

(** C4 (as amended). With a filename pattern configured, the first
    resolution of a stream that names no explicit list of locations keeps
    exactly the candidates whose file name the pattern finds, in their
    relative order, whichever branch produced the candidates; an explicit
    non-empty list of locations is returned as given, without filtering. *)
Theorem pattern_filter_scope st :
  _cached_paths st = None ->
  truthy_str (cfg_pattern C) = true ->
  match cfg_uris C with
  | Some (u :: us) => (_iter_paths L B C st).1 = Ok (u :: us)
  | _ =>
      ∀ uri regex cands st1,
        cfg_uri C = Some uri -> uri ≠ "" ->
        re_compile L (default "" (cfg_pattern C)) = Some regex ->
        candidate_paths L B uri (cfg_pattern C) st = (Ok cands, st1) ->
        (_iter_paths L B C st).1 =
        Ok (List.filter (fun path => search regex (filename path)) cands)
  end.
Proof.
  intros Hc Hp.
  destruct (cfg_uris C) as [[|u us]|] eqn:Hu.
  - intros uri regex cands st1 Huri Hne Hre Hcand.
    rewrite (iter_paths_fresh st uri) by auto.
    rewrite (bind_ok _ _ _ _ _ Hcand).
    rewrite (bind_ok _ _ _ _ _ (apply_pattern_compiled _ regex cands st1 Hp Hre)).
    reflexivity.
  - unfold _iter_paths.
    rewrite (bind_ok get_cached_paths _ st None st)
      by (unfold get_cached_paths; by rewrite Hc).
    by rewrite Hu.
  - intros uri regex cands st1 Huri Hne Hre Hcand.
    rewrite (iter_paths_fresh st uri) by auto.
    rewrite (bind_ok _ _ _ _ _ Hcand).
    rewrite (bind_ok _ _ _ _ _ (apply_pattern_compiled _ regex cands st1 Hp Hre)).
    reflexivity.
Qed.

(** C10. The pattern filter keeps a path exactly when the compiled
    pattern matches some span of the path's basename, the part of the path
    after its last slash: the match may start and end anywhere in the
    basename and need not cover it, and what comes before the last slash
    takes no part in it. *)
Theorem pattern_filter_is_unanchored_search pattern regex paths st :
  truthy_str pattern = true ->
  re_compile L (default "" pattern) = Some regex ->
  apply_pattern L pattern paths st = (Ok (filter_paths regex paths), st) ∧
  ∀ path,
    path ∈ filter_paths regex paths ↔
    path ∈ paths ∧
    ∃ dir base,
      path = dir +:+ base ∧ contains_char "/" base = false ∧
      (dir = "" ∨ ends_with_char "/" dir = true) ∧
      let name := String.list_ascii_of_string base in
      ∃ i j, i ≤ j ≤ List.length name ∧ matches name regex i j.
Proof.
  intros Hp Hre. split; [by apply apply_pattern_compiled|].
  intros path. unfold filter_paths.
  rewrite !list_elem_of_In, filter_In, search_spec. split.
  - intros [Hin Hm]. split; [done|].
    destruct (split_last "/" path) as (Hc & dir & Hs & H).
    exists dir, (filename path). split_and!; [done..| |done].
    destruct H as [[-> _]|[Hd _]]; auto.
  - intros [Hin (dir & base & -> & Hc & Hd & Hm)]. split; [done|].
    by rewrite filename_of_segments.
Qed.

End PathFacts.

Lemma pattern_filter_scope_witness :
  (_cached_paths new_stream = None ∧
   truthy_str (cfg_pattern Sample.directory_stream) = true) ∧
  (_iter_paths Sample.lib (Sample.listing Sample.inbox)
     Sample.directory_stream new_stream).1 =
  Ok ["sftp://host/inbox/b.csv"; "sftp://host/inbox/a.csv"].
Proof.
  split; [by split|].
  exact (pattern_filter_scope Sample.lib (Sample.listing Sample.inbox)
           Sample.directory_stream new_stream eq_refl eq_refl
           "sftp://host/inbox" (Cat (Lit ".csv") Eol)
           ["sftp://host/inbox/b.csv"; "sftp://host/inbox/notes.txt";
            "sftp://host/inbox/a.csv"]
           {| _cached_paths := None; clock := 0; trace := [EvListdir "/inbox"] |}
           eq_refl ltac:(discriminate) eq_refl eq_refl).
Defined.

(** C4, as stated, fails: an explicit list is resolved to itself, here
    with a file whose name the configured pattern does not match. *)
Lemma explicit_list_is_not_filtered :
  re_compile Sample.lib "csv" = Some (Lit "csv") ∧
  (_iter_paths Sample.lib Sample.offline Sample.explicit_list_stream new_stream).1
  = Ok ["a.txt"; "b.csv"] ∧
  search (Lit "csv") (filename "a.txt") = false.
Proof. by vm_compute. Qed.

Lemma pattern_filter_is_unanchored_search_witness :
  (truthy_str (Some "csv") = true ∧
   re_compile Sample.lib (default "" (Some "csv")) = Some (Lit "csv")) ∧
  apply_pattern Sample.lib (Some "csv")
    ["csv/readme.txt"; "inbox/data.csv.bak"] new_stream
  = (Ok (filter_paths (Lit "csv") ["csv/readme.txt"; "inbox/data.csv.bak"]),
     new_stream) ∧
  "inbox/data.csv.bak"
  ∈ filter_paths (Lit "csv") ["csv/readme.txt"; "inbox/data.csv.bak"].
Proof.
  split; [by split|].
  pose proof (pattern_filter_is_unanchored_search Sample.lib (Some "csv")
                (Lit "csv") ["csv/readme.txt"; "inbox/data.csv.bak"]
                new_stream eq_refl eq_refl) as [Hrun Hkeep].
  split; [exact Hrun|].
  apply Hkeep. split; [apply list_elem_of_In; right; by left|].
  exists "inbox/", "data.csv.bak". split_and!; [done..|by right|].
  exists 5, 8. split; [simpl; lia|].
  apply ends_spec. vm_compute. by left.
Defined.

(** The pattern [csv] keeps [data.csv.bak], which it does not match as a
    whole, and drops [readme.txt] although its directory is named [csv]. *)
Example unanchored_pattern_keeps_longer_name :
  apply_pattern Sample.lib (Some "csv")
    ["csv/readme.txt"; "inbox/data.csv.bak"] new_stream
  = (Ok ["inbox/data.csv.bak"], new_stream) ∧
  fullmatch (Lit "csv") (filename "inbox/data.csv.bak") = false.
Proof. by vm_compute. Qed.

Lemma listing_failure_falls_back_witness :
  (_cached_paths new_stream = None ∧
   (cfg_uris Cases.unlisted_stream = None ∨ cfg_uris Cases.unlisted_stream = Some []) ∧
   cfg_uri Cases.unlisted_stream = Some "sftp://host/inbox" ∧
   "sftp://host/inbox" ≠ "" ∧
   _looks_like_glob "sftp://host/inbox" = false ∧
   truthy_str (cfg_pattern Cases.unlisted_stream) = true ∧
   re_compile Sample.lib (default "" (cfg_pattern Cases.unlisted_stream))
   = Some (Star Dot) ∧
   list_directory Sample.lib Sample.offline "sftp://host/inbox/" new_stream
   = (Raise (IOError "listdir"),
      {| _cached_paths := None; clock := 0; trace := [EvListdir "/inbox"] |})) ∧
  ∃ paths,
    _iter_paths Sample.lib Sample.offline Cases.unlisted_stream new_stream
    = (Ok paths,
       {| _cached_paths := Some paths;
          clock := 0;
          trace := [EvListdir "/inbox";
                    EvWarning "Failed to list directory sftp://host/inbox/";
                    EvWarning "Traceback"] |}) ∧
    paths = List.filter (fun path => search (Star Dot) (filename path))
              ["sftp://host/inbox/"] ∧
    (paths = ["sftp://host/inbox/"] ∨ paths = []).
Proof.
  assert (Hne : "sftp://host/inbox" ≠ "") by discriminate.
  split; [split_and!; auto|].
  exact (listing_failure_falls_back Sample.lib Sample.offline
           Cases.unlisted_stream new_stream
           "sftp://host/inbox" (Star Dot) (IOError "listdir")
           {| _cached_paths := None; clock := 0; trace := [EvListdir "/inbox"] |}
           eq_refl (or_introl eq_refl) eq_refl Hne eq_refl eq_refl eq_refl eq_refl).
Defined.


(** C7. Evaluation at the failing input: the backend lists [b.csv] before
    [a.csv]. The matching files are resolved in the order of the listing,
    which is not the sorted order. *)
Theorem directory_paths_keep_listing_order :
  (_iter_paths Sample.lib (Sample.listing Sample.inbox)
     Sample.directory_stream new_stream).1
  = Ok ["sftp://host/inbox/b.csv"; "sftp://host/inbox/a.csv"] ∧
  sorted ["sftp://host/inbox/b.csv"; "sftp://host/inbox/a.csv"]
  = ["sftp://host/inbox/a.csv"; "sftp://host/inbox/b.csv"].
Proof. by vm_compute. Qed.

(** ** Merging type tags *)

Lemma elem_of_sorted x l : x ∈ sorted l ↔ x ∈ l.
Proof. unfold sorted. by rewrite merge_sort_Permutation. Qed.

Lemma elem_of_sorted_elements x (X : gset string) : x ∈ sorted (elements X) ↔ x ∈ X.
Proof. by rewrite elem_of_sorted, elem_of_elements. Qed.

(** No emitted property lists both tags, whatever was merged. *)
Lemma property_of_types_exclusive (types : gset string) :
  ¬ ("integer" ∈ type_tags (p_type (property_of_types types))
     ∧ "number" ∈ type_tags (p_type (property_of_types types))).
Proof.
  unfold property_of_types.
  destruct (bool_decide ("date-time" ∈ types)).
  { destruct (bool_decide ("null" ∈ types)); simpl; set_solver. }
  set (types' := if bool_decide ("integer" ∈ types ∧ "number" ∈ types)
                 then types ∖ {["integer"]} else types).
  assert (Hex : ¬ ("integer" ∈ types' ∧ "number" ∈ types')).
  { unfold types'. case_bool_decide; set_solver. }
  clearbody types'.
  destruct (bool_decide (size types' = 0)); [simpl; set_solver|].
  destruct (bool_decide ("null" ∈ types')).
  - destruct (List.filter _ _) as [|t [|t' l]]; simpl;
      rewrite ?elem_of_sorted_elements; [done | set_solver | done].
  - destruct (elements types') as [|t [|t' l]] eqn:He; simpl;
      rewrite ?elem_of_sorted, <- ?He, ?elem_of_elements; [done| |done].
    set_solver.
Qed.

(** C3 (as amended). Merging ["number"] removes ["integer"] and adds
    ["number"]. Merging ["integer"] only adds it: a set that holds
    ["number"] keeps it and then holds both tags. The two are made
    exclusive when the property is emitted, which never lists both. *)
Theorem merge_types_integer_number (types : gset string) :
  _merge_types types "number" = (types ∖ {["integer"]}) ∪ {["number"]} ∧
  _merge_types types "integer" = types ∪ {["integer"]} ∧
  ¬ ("integer" ∈ type_tags (p_type (property_of_types types))
     ∧ "number" ∈ type_tags (p_type (property_of_types types))).
Proof.
  split_and!.
  - unfold _merge_types. case_bool_decide as H; [done|].
    apply set_eq. intros x. set_solver.
  - unfold _merge_types. case_bool_decide as H; [|done].
    by destruct H as [? _].
  - apply property_of_types_exclusive.
Qed.

(** C3, as stated, fails: merging ["integer"] into a set that holds
    ["number"] changes the set, which then holds both tags. *)
Lemma merge_integer_into_number_keeps_both :
  _merge_types {["number"]} "integer" ≠ {["number"]} ∧
  "integer" ∈ _merge_types {["number"]} "integer" ∧
  "number" ∈ _merge_types {["number"]} "integer".
Proof.
  unfold _merge_types. case_bool_decide as H; [by destruct H|].
  split_and!; [|set_solver|set_solver].
  intros Heq. assert (Hin : "integer" ∈ ({["number"]} : gset string)).
  { rewrite <- Heq. set_solver. }
  by apply elem_of_singleton in Hin.
Qed.

(** ** The incremental filter *)

Section FilterFacts.

Variable L : pylib.

(** On operands that are ordered, [>] is the negation of [<=]. *)
Lemma py_gt_not_le v c o :
  py_compare v c = Ordered o ->
  ∃ b, py_le v c = Ok b ∧ py_gt v c = Ok (negb b).
Proof.
  intros H. unfold py_le, py_gt. rewrite H.
  destruct o; eexists; split; reflexivity.
Qed.

Lemma process_record_no_cursor key extraction_time rec :
  process_record L key None extraction_time rec
  = Ok (Some (stamp key extraction_time rec)).
Proof. unfold process_record. by destruct (truthy_str key). Qed.

Lemma process_record_null key c extraction_time rec :
  replication_value L key extraction_time rec = PNone ->
  process_record L key (Some c) extraction_time rec
  = Ok (Some (stamp key extraction_time rec)).
Proof.
  unfold replication_value, process_record. intros ->.
  by destruct (truthy_str key).
Qed.

Lemma process_record_ordered key c extraction_time rec o :
  truthy_str key = true ->
  py_compare (replication_value L key extraction_time rec) (start_val_cmp L c)
  = Ordered o ->
  process_record L key (Some c) extraction_time rec
  = if bool_decide (o = Gt) then Ok (Some (stamp key extraction_time rec))
    else Ok None.
Proof.
  unfold replication_value, process_record. intros -> H.
  destruct (_coerce_replication_value L _) eqn:Hv;
    try (unfold py_le; rewrite H; by destruct o).
  by destruct c.
Qed.


(** The same over a whole run of raw records, each of which has a null
    or an ordered key value: the records emitted are the admitted ones,
    stamped, in order, and the filter raises nothing of its own. *)
Lemma emit_records_admitted key c extraction_time recs err :
  truthy_str key = true ->
  (∀ rec, rec ∈ recs ->
     replication_value L key extraction_time rec = PNone ∨
     ∃ o, py_compare (replication_value L key extraction_time rec)
                     (start_val_cmp L c) = Ordered o) ->
  emit_records L key (Some c) extraction_time recs err
  = (map (stamp key extraction_time)
         (List.filter (admitted L key c extraction_time) recs), err).
Proof.
  intros Hk. induction recs as [|rec recs IH]; intros Hall; [done|].
  cbn [emit_records List.filter].
  rewrite IH by (intros r Hr; apply Hall; by right).
  destruct (Hall rec) as [Hn | [o Ho]]; [by left| |].
  - rewrite (process_record_null _ _ _ _ Hn). unfold admitted. by rewrite Hn.
  - rewrite (process_record_ordered _ _ _ _ o Hk Ho).
    unfold admitted.
    destruct (replication_value L key extraction_time rec) eqn:Hv;
      try (unfold py_gt; rewrite Ho; by destruct o).
    by destruct (start_val_cmp L c).
Qed.

(** A string cursor that is no timestamp stays a string, also when it
    reads as a number. *)
Lemma start_val_cmp_not_numeric s :
  isoparse L s = None -> start_val_cmp L (CStr s) = CStr s.
Proof. intros H. simpl. by rewrite H. Qed.

(** A numeric string cursor against a record value that coerces to an
    integer: the comparison is between an [int] and a [str]. *)
Lemma numeric_string_cursor_type_error key extraction_time rec s z :
  truthy_str key = true ->
  isoparse L s = None ->
  replication_value L key extraction_time rec = PInt z ->
  process_record L key (Some (CStr s)) extraction_time rec = Raise TypeError.
Proof.
  unfold replication_value, process_record. intros -> Hs ->.
  by rewrite start_val_cmp_not_numeric.
Qed.

End FilterFacts.


(** C2. Evaluation at the failing input: the cursor is the string ["5"]
    and the record's key value is the string ["7"]. The record value is
    coerced to the integer 7, the cursor stays the string ["5"], and the
    comparison raises [TypeError] instead of admitting the record. *)
Theorem numeric_string_cursor_is_not_coerced :
  _coerce_replication_value Sample.lib (PStr "7") = PInt 7 ∧
  _coerce_replication_value Sample.lib (PStr "5") = PInt 5 ∧
  start_val_cmp Sample.lib (CStr "5") = CStr "5" ∧
  (get_records Sample.lib
     (Sample.reading [[("id", PStr "7")]] (Some (CStr "5")))
     (Sample.config (Some "data.csv") None None None (Some "id"))
     new_stream).1
  = ([], Some TypeError).
Proof. by vm_compute. Qed.

(** ** What resolution and sampling leave on the stream *)

Lemma extends_refl st : extends st st.
Proof. split; [done|]. exists []. by rewrite app_nil_r. Qed.

Lemma extends_trans st1 st2 st3 : extends st1 st2 -> extends st2 st3 -> extends st1 st3.
Proof.
  intros [Hc1 [e1 He1]] [Hc2 [e2 He2]]. split; [congruence|].
  exists (e1 ++ e2). by rewrite He2, He1, app_assoc.
Qed.

Lemma quiet_ret {A : Type} (a : A) : quiet (mret a).
Proof. intros st. apply extends_refl. Qed.

Lemma quiet_raise {A : Type} (e : exn) : quiet (raise (A := A) e).
Proof. intros st. apply extends_refl. Qed.

Lemma quiet_lift {A : Type} (r : result A) : quiet (lift r).
Proof. intros st. apply extends_refl. Qed.

Lemma quiet_lift_opt {A : Type} e (o : option A) : quiet (lift_opt e o).
Proof. intros st. apply extends_refl. Qed.

Lemma quiet_log ev : quiet (log ev).
Proof. intros st. split; [done|]. by exists [ev]. Qed.

Lemma quiet_set_cached_paths paths : quiet (set_cached_paths paths).
Proof. intros st. split; [done|]. exists []. simpl. by rewrite app_nil_r. Qed.

Lemma quiet_get_cached_paths : quiet get_cached_paths.
Proof. intros st. apply extends_refl. Qed.

Lemma quiet_bind {A B : Type} (m : M A) (f : A -> M B) :
  quiet m -> (∀ a, quiet (f a)) -> quiet (m ≫= f).
Proof.
  intros Hm Hf st. unfold mbind, M_bind. specialize (Hm st).
  destruct (m st) as [[a|e] st']; simpl in *; [|done].
  eapply extends_trans; [exact Hm | apply Hf].
Qed.

Lemma quiet_try_except {A : Type} (m : M A) (h : exn -> M A) :
  quiet m -> (∀ e, quiet (h e)) -> quiet (try_except m h).
Proof.
  intros Hm Hh st. unfold try_except. specialize (Hm st).
  destruct (m st) as [[a|e] st']; simpl in *; [done|].
  eapply extends_trans; [exact Hm | apply Hh].
Qed.

Create HintDb quiet.
#[global] Hint Resolve quiet_ret quiet_raise quiet_lift quiet_lift_opt quiet_log
  quiet_set_cached_paths quiet_get_cached_paths : quiet.

Ltac quiet_step :=
  first [ apply quiet_bind; [|intros ?]
        | apply quiet_try_except; [|intros ?]
        | solve [auto with quiet] ].

Section TraceFacts.

Variable L : pylib.
Variable B : backend.
Variable C : stream_config.

Lemma quiet_list_directory uri : quiet (list_directory L B uri).
Proof.
  unfold list_directory. repeat quiet_step.
  destruct a1 as [|[] ?]; repeat quiet_step.
Qed.

Lemma quiet_candidate_paths uri pattern : quiet (candidate_paths L B uri pattern).
Proof.
  unfold candidate_paths.
  destruct (_looks_like_glob uri); [repeat quiet_step|].
  destruct (truthy_str pattern); [|repeat quiet_step].
  apply quiet_try_except; [apply quiet_list_directory | intros e; repeat quiet_step].
Qed.

Lemma quiet_apply_pattern pattern paths : quiet (apply_pattern L pattern paths).
Proof. unfold apply_pattern. destruct (truthy_str pattern); repeat quiet_step. Qed.

Lemma quiet_iter_paths : quiet (_iter_paths L B C).
Proof.
  unfold _iter_paths. apply quiet_bind; [auto with quiet|]. intros [paths|].
  { auto with quiet. }
  assert (Hrest : quiet
    (if negb (truthy_str (cfg_uri C)) then
       raise (ValueError ("Stream '" +:+ cfg_name C +:+ "' missing 'uri' or 'uris'"))
     else
       paths ← candidate_paths L B (default "" (cfg_uri C)) (cfg_pattern C);
       paths ← apply_pattern L (cfg_pattern C) paths;
       _ ← set_cached_paths paths;
       mret paths)).
  { destruct (negb _); [auto with quiet|].
    apply quiet_bind; [apply quiet_candidate_paths | intros ?].
    apply quiet_bind; [apply quiet_apply_pattern | intros ?].
    repeat quiet_step. }
  destruct (cfg_uris C) as [[|u us]|]; [exact Hrest | repeat quiet_step | exact Hrest].
Qed.

(** Every start of the raw iterator is on the trace, and the clock is
    not read by it. *)
Lemma iter_records_raw_marks limit st :
  clock (_iter_records_raw L B C limit st).2 = clock st ∧
  ∃ evs, trace (_iter_records_raw L B C limit st).2
         = trace st ++ EvIterRecordsRaw limit :: evs.
Proof.
  unfold _iter_records_raw.
  assert (Hq : extends (log (EvIterRecordsRaw limit) st).2
                 ((_ ← log (EvIterRecordsRaw limit); _iter_paths L B C) st).2).
  { unfold mbind, M_bind. simpl. apply quiet_iter_paths. }
  destruct ((_ ← log (EvIterRecordsRaw limit); _iter_paths L B C) st)
    as [[paths|e] st'] eqn:E; simpl in *;
    destruct Hq as [Hc [evs Hevs]]; (split; [done|]);
    exists evs; rewrite Hevs; cbn [trace]; by rewrite <- app_assoc.
Qed.

End TraceFacts.

(** ** The schema accessor *)

Section SchemaFacts.

Variable L : pylib.
Variable B : backend.
Variable C : stream_config.

(** Inference always starts the raw iterator, which shows on the trace. *)
Lemma infer_schema_samples st :
  ∃ evs, trace (_infer_schema L B C st).2
         = trace st ++ EvIterRecordsRaw (Some (default 2000%Z (cfg_infer_samples C))) :: evs.
Proof.
  unfold _infer_schema.
  destruct (iter_records_raw_marks L B C
              (Some (default 2000%Z (cfg_infer_samples C))) st) as [_ [evs Hevs]].
  destruct (_iter_records_raw L B C _ st) as [[recs err] st'].
  destruct (collect_samples _ [] recs) as [samples broke].
  exists evs. destruct broke; [exact Hevs|]. by destruct err.
Qed.

(** C5 (as amended). For every stream whose configured schema is a
    non-empty object (a true value), the schema accessor returns that
    object unchanged and leaves the stream as it was: the raw iterator is
    not started, no path is resolved and nothing is logged. *)
Theorem explicit_schema_returned_unchanged st explicit :
  cfg_schema C = Some explicit ->
  json_truthy explicit = true ->
  schema L B C st = (Ok explicit, st).
Proof. intros Hs Ht. unfold schema. by rewrite Hs, Ht. Qed.

End SchemaFacts.

Lemma explicit_schema_returned_unchanged_witness :
  (cfg_schema Sample.explicit_schema_stream = Some Sample.explicit_schema ∧
   json_truthy Sample.explicit_schema = true) ∧
  schema Sample.lib (Sample.reading Sample.rows None)
    Sample.explicit_schema_stream new_stream
  = (Ok Sample.explicit_schema, new_stream).
Proof.
  split; [by split|].
  exact (explicit_schema_returned_unchanged Sample.lib
           (Sample.reading Sample.rows None) Sample.explicit_schema_stream
           new_stream Sample.explicit_schema eq_refl eq_refl).
Defined.

(** C5, as stated, fails: an explicit schema that is the empty object is
    not returned; the records are sampled and a schema is inferred. *)
Lemma empty_explicit_schema_is_inferred :
  cfg_schema Sample.empty_schema_stream = Some (JDict []) ∧
  schema Sample.lib (Sample.reading Sample.rows None)
    Sample.empty_schema_stream new_stream
  = (Ok (JDict
           [("type", JStr "object");
            ("additionalProperties", JBool true);
            ("properties",
             JDict [("id", JDict [("type", JStr "integer")]);
                    ("amount", JDict [("type", JStr "number")])]);
            ("required", JList [JStr "id"; JStr "amount"])]),
     {| _cached_paths := Some ["data.csv"];
        clock := 0;
        trace := [EvIterRecordsRaw (Some 2000%Z)] |}).
Proof. by vm_compute. Qed.

(** ** The extraction timestamp *)

Section DictFacts.

Context {V : Type}.
Implicit Types d : list (string * V).

Lemma dict_get_set_eq k v d : dict_get k (dict_set k v d) = Some v.
Proof.
  induction d as [|[k' v'] d IH]; simpl.
  - by rewrite String.eqb_refl.
  - destruct (String.eqb k k') eqn:E; simpl; [by rewrite String.eqb_refl|].
    by rewrite E.
Qed.

Lemma dict_get_set_ne k k' v d :
  String.eqb k k' = false -> dict_get k (dict_set k' v d) = dict_get k d.
Proof.
  intros Hne. induction d as [|[k'' v''] d IH]; simpl.
  - by rewrite Hne.
  - destruct (String.eqb k' k'') eqn:E; simpl.
    + apply String.eqb_eq in E as <-. by rewrite Hne.
    + by rewrite IH.
Qed.

Lemma dict_get_map {W : Type} (f : V -> W) k d :
  dict_get k (map (fun '(k, x) => (k, f x)) d) = f <$> dict_get k d.
Proof.
  induction d as [|[k' v'] d IH]; simpl; [done|].
  by destruct (String.eqb k k').
Qed.

End DictFacts.

Section StampFacts.

Variable L : pylib.
Variable B : backend.
Variable C : stream_config.

Abbreviation sdc := "_sdc_extracted_at" (only parsing).

Lemma emit_records_stamped start_val extraction_time recs err rec :
  rec ∈ (emit_records L (Some sdc) start_val extraction_time recs err).1 ->
  dict_get sdc rec = Some (PStr extraction_time).
Proof.
  induction recs as [|r recs IH]; simpl; [by intros ?%not_elem_of_nil|].
  destruct (process_record L (Some sdc) start_val extraction_time r)
    as [[r'|]|e] eqn:Hp; [| done | by intros ?%not_elem_of_nil].
  destruct (emit_records L (Some sdc) start_val extraction_time recs err)
    as [out err'] eqn:He. simpl in *.
  intros [->|Hin]%elem_of_cons; [|by apply IH].
  assert (r' = stamp (Some sdc) extraction_time r) as ->.
  { unfold process_record in Hp.
    repeat match type of Hp with
           | context [match ?x with _ => _ end] => destruct x
           end; congruence. }
  unfold stamp. rewrite bool_decide_eq_true_2 by done. apply dict_get_set_eq.
Qed.

(** Every record a run emits carries the reading of the clock taken at
    the start of the run, and the run reads the clock once. *)
Lemma get_records_stamped st :
  replication_key C = Some sdc ->
  (∀ rec, rec ∈ (get_records L B C st).1.1 ->
     dict_get sdc rec = Some (PStr (utcnow_isoformat B (clock st) +:+ "Z"))) ∧
  clock (get_records L B C st).2 = S (clock st).
Proof.
  intros Hk. unfold get_records. rewrite Hk. simpl.
  set (st1 := {| _cached_paths := _cached_paths st; clock := S (clock st);
                 trace := trace st ++ [EvUtcnow] |}).
  destruct (iter_records_raw_marks L B C None st1) as [Hclock _].
  destruct (_iter_records_raw L B C None st1) as [[recs err] st2].
  simpl in *. split; [|exact Hclock].
  intros rec. apply emit_records_stamped.
Qed.

(** C9. With [_sdc_extracted_at] as the replication key, every record
    emitted by one call of [get_records] carries the same timestamp: the
    reading of the clock taken when the call starts, which is the only
    reading of the call. *)
Theorem extraction_time_taken_once st :
  replication_key C = Some sdc ->
  let run := get_records L B C st in
  let extraction_time := utcnow_isoformat B (clock st) +:+ "Z" in
  (∀ rec, rec ∈ run.1.1 -> dict_get sdc rec = Some (PStr extraction_time)) ∧
  (∀ r1 r2, r1 ∈ run.1.1 -> r2 ∈ run.1.1 -> dict_get sdc r1 = dict_get sdc r2) ∧
  clock run.2 = S (clock st).
Proof.
  intros Hk run extraction_time.
  destruct (get_records_stamped st Hk) as [Hall Hclock].
  split_and!; [exact Hall | | exact Hclock].
  intros r1 r2 H1 H2. by rewrite (Hall r1 H1), (Hall r2 H2).
Qed.



Lemma ensure_primary_keys_keeps k p : ∀ properties,
  dict_get k properties = Some p ->
  dict_get k (ensure_primary_keys C properties) = Some p.
Proof.
  unfold ensure_primary_keys, primary_keys.
  induction (cfg_keys C) as [|pk pks IH]; intros properties Hk; [done|].
  simpl. apply IH. unfold dict_mem.
  destruct (dict_get pk properties) eqn:Hpk; [done|].
  rewrite dict_get_set_ne; [done|].
  destruct (String.eqb k pk) eqn:E; [|done].
  apply String.eqb_eq in E as ->. congruence.
Qed.




(** Inference returns a schema whenever the raw iterator ends without an
    exception. *)
Lemma infer_schema_returns st recs st' :
  _iter_records_raw L B C (Some (default 2000%Z (cfg_infer_samples C))) st
  = ((recs, None), st') ->
  ∃ samples, _infer_schema L B C st = (Ok (schema_of_samples L C samples), st').
Proof.
  intros H. unfold _infer_schema. rewrite H.
  destruct (collect_samples _ [] recs) as [samples [|]]; by exists samples.
Qed.


Lemma schema_of_samples_property samples k :
  json_field "properties" (schema_of_samples L C samples) ≫= json_field k
  = json_of_property <$> dict_get k (properties_of_samples L C samples).
Proof. unfold schema_of_samples. simpl. apply dict_get_map. Qed.


End StampFacts.

Lemma extraction_time_taken_once_witness :
  replication_key Sample.stamped_stream = Some "_sdc_extracted_at" ∧
  ((∀ rec,
      rec ∈ (get_records Sample.lib (Sample.reading Sample.rows None)
               Sample.stamped_stream new_stream).1.1 ->
      dict_get "_sdc_extracted_at" rec
      = Some (PStr "2024-06-01T12:00:00.000500Z")) ∧
   clock (get_records Sample.lib (Sample.reading Sample.rows None)
            Sample.stamped_stream new_stream).2 = 1).
Proof.
  split; [reflexivity|].
  pose proof (extraction_time_taken_once Sample.lib
                (Sample.reading Sample.rows None) Sample.stamped_stream
                new_stream eq_refl) as H.
  exact (conj (proj1 H) (proj2 (proj2 H))).
Defined.


(** The run and the schema of the sample stream whose replication key is
    [_sdc_extracted_at]: both records are stamped with the one reading of
    the clock, and the field is in the properties, not in the required
    list. *)
Example stamped_stream_run :
  get_records Sample.lib (Sample.reading Sample.rows None)
    Sample.stamped_stream new_stream
  = (([[("id", PInt 1); ("amount", PFloat (FFin 3 (-1)));
        ("_sdc_extracted_at", PStr "2024-06-01T12:00:00.000500Z")];
       [("id", PInt 2); ("amount", PInt 3);
        ("_sdc_extracted_at", PStr "2024-06-01T12:00:00.000500Z")]],
      None),
     {| _cached_paths := Some ["data.csv"];
        clock := 1;
        trace := [EvUtcnow; EvIterRecordsRaw None] |}).
Proof. by vm_compute. Qed.

Example stamped_stream_schema :
  (schema Sample.lib (Sample.reading Sample.rows None)
     Sample.stamped_stream new_stream).1
  = Ok (JDict
          [("type", JStr "object");
           ("additionalProperties", JBool true);
           ("properties",
            JDict [("id", JDict [("type", JStr "integer")]);
                   ("amount", JDict [("type", JStr "number")]);
                   ("_sdc_extracted_at",
                    JDict [("type", JList [JStr "string"; JStr "null"]);
                           ("format", JStr "date-time")])]);
           ("required", JList [JStr "id"; JStr "amount"])]).
Proof. by vm_compute. Qed.

(** * Further properties of the code *)

(** ** Order of strings *)

Lemma ascii_compare_lt_trans a b c :
  (a ?= b)%char = Lt -> (b ?= c)%char = Lt -> (a ?= c)%char = Lt.
Proof.
  unfold Ascii.compare. rewrite !N.compare_lt_iff. lia.
Qed.

Lemma string_compare_trans : ∀ a b c,
  String.compare a b ≠ Gt -> String.compare b c ≠ Gt -> String.compare a c ≠ Gt.
Proof.
  induction a as [|x a IH]; intros [|y b] [|z c]; simpl; try done.
  destruct (x ?= y)%char eqn:Hxy; [| |done].
  - apply Ascii.compare_eq_iff in Hxy as ->.
    destruct (y ?= z)%char eqn:Hyz; [apply IH | done | done].
  - destruct (y ?= z)%char eqn:Hyz; [| |done].
    + apply Ascii.compare_eq_iff in Hyz as <-. by rewrite Hxy.
    + by rewrite (ascii_compare_lt_trans _ _ _ Hxy Hyz).
Qed.

Lemma str_le_compare a b : str_le a b ↔ String.compare a b ≠ Gt.
Proof. unfold str_le, String.leb. by destruct (String.compare a b). Qed.

#[global] Instance str_le_trans : Transitive str_le.
Proof. intros a b c. rewrite !str_le_compare. apply string_compare_trans. Qed.

#[global] Instance str_le_total : Total str_le.
Proof. intros a b. apply String.leb_total. Qed.

#[global] Instance str_le_antisym : AntiSymm eq str_le.
Proof. intros a b. apply String.leb_antisym. Qed.

(** [sorted] gives the one sorted arrangement of its argument. *)
Lemma sorted_spec l :
  Sorted str_le (sorted l) ∧ sorted l ≡ₚ l ∧
  ∀ l', l' ≡ₚ l -> sorted l' = sorted l.
Proof.
  split_and!.
  - apply Sorted_merge_sort, _.
  - apply merge_sort_Permutation.
  - intros l' Hl'. apply (Sorted_unique str_le).
    + apply Sorted_merge_sort, _.
    + apply Sorted_merge_sort, _.
    + unfold sorted. by rewrite !merge_sort_Permutation.
Qed.

(** ** Path resolution: cache, failures, order *)

Lemma cache_kept_ret {A : Type} (a : A) : cache_kept (mret a).
Proof. by intros st. Qed.

Lemma cache_kept_lift {A : Type} (r : result A) : cache_kept (lift r).
Proof. by intros st. Qed.

Lemma cache_kept_lift_opt {A : Type} e (o : option A) : cache_kept (lift_opt e o).
Proof. by intros st. Qed.

Lemma cache_kept_log ev : cache_kept (log ev).
Proof. by intros st. Qed.

Lemma cache_kept_bind {A B : Type} (m : M A) (f : A -> M B) :
  cache_kept m -> (∀ a, cache_kept (f a)) -> cache_kept (m ≫= f).
Proof.
  intros Hm Hf st. unfold mbind, M_bind. specialize (Hm st).
  destruct (m st) as [[a|e] st']; simpl in *; [|done].
  by rewrite Hf.
Qed.

Lemma cache_kept_try_except {A : Type} (m : M A) (h : exn -> M A) :
  cache_kept m -> (∀ e, cache_kept (h e)) -> cache_kept (try_except m h).
Proof.
  intros Hm Hh st. unfold try_except. specialize (Hm st).
  destruct (m st) as [[a|e] st']; simpl in *; [done|].
  by rewrite Hh.
Qed.

Create HintDb cache_kept.
#[global] Hint Resolve cache_kept_ret cache_kept_lift cache_kept_lift_opt
  cache_kept_log : cache_kept.

Ltac cache_kept_step :=
  first [ apply cache_kept_bind; [|intros ?]
        | apply cache_kept_try_except; [|intros ?]
        | solve [auto with cache_kept] ].

Section PathFurther.

Variable L : pylib.
Variable B : backend.
Variable C : stream_config.

Lemma cache_kept_list_directory uri : cache_kept (list_directory L B uri).
Proof.
  unfold list_directory. repeat cache_kept_step.
  destruct a1 as [|[] ?]; repeat cache_kept_step.
Qed.

Lemma cache_kept_candidate_paths uri pattern :
  cache_kept (candidate_paths L B uri pattern).
Proof.
  unfold candidate_paths.
  destruct (_looks_like_glob uri); [repeat cache_kept_step|].
  destruct (truthy_str pattern); [|repeat cache_kept_step].
  apply cache_kept_try_except;
    [apply cache_kept_list_directory | intros e; repeat cache_kept_step].
Qed.

Lemma cache_kept_apply_pattern pattern paths :
  cache_kept (apply_pattern L pattern paths).
Proof. unfold apply_pattern. destruct (truthy_str pattern); repeat cache_kept_step. Qed.

(** Candidates can only fail to be produced in the glob branch, with the
    exception of the expansion. *)
Lemma candidate_paths_raises uri pattern st e st' :
  candidate_paths L B uri pattern st = (Raise e, st') ->
  _looks_like_glob uri = true ∧ open_files B uri = Raise e.
Proof.
  unfold candidate_paths. destruct (_looks_like_glob uri).
  - unfold mbind, M_bind, log, lift, mret, M_ret.
    destruct (open_files B uri); [done|]. by intros [= ->].
  - destruct (truthy_str pattern); [|done].
    unfold try_except. destruct (list_directory L B _ st) as [[a|e'] st1]; done.
Qed.

Lemma apply_pattern_raises pattern paths st e st' :
  apply_pattern L pattern paths st = (Raise e, st') ->
  truthy_str pattern = true ∧ re_compile L (default "" pattern) = None
  ∧ e = ReError.
Proof.
  unfold apply_pattern. destruct (truthy_str pattern); [|done].
  unfold mbind, M_bind, lift_opt.
  destruct (re_compile L (default "" pattern)); [done|]. by intros [= <-].
Qed.

Lemma iter_paths_cached st paths :
  _cached_paths st = Some paths -> _iter_paths L B C st = (Ok paths, st).
Proof.
  intros Hc. unfold _iter_paths.
  by rewrite (bind_ok get_cached_paths _ st (Some paths) st)
    by (unfold get_cached_paths; by rewrite Hc).
Qed.

(** What [_iter_paths] does when nothing is cached. *)
Lemma iter_paths_uncached st :
  _cached_paths st = None ->
  _iter_paths L B C st =
  match cfg_uris C with
  | Some (u :: us) => (Ok (u :: us), (set_cached_paths (u :: us) st).2)
  | _ =>
      if truthy_str (cfg_uri C) then
        (paths ← candidate_paths L B (default "" (cfg_uri C)) (cfg_pattern C);
         paths ← apply_pattern L (cfg_pattern C) paths;
         _ ← set_cached_paths paths;
         mret paths) st
      else
        (Raise (ValueError ("Stream '" +:+ cfg_name C
                            +:+ "' missing 'uri' or 'uris'")), st)
  end.
Proof.
  intros Hc. unfold _iter_paths.
  rewrite (bind_ok get_cached_paths _ st None st)
    by (unfold get_cached_paths; by rewrite Hc).
  destruct (cfg_uris C) as [[|u us]|]; [|done|];
    by destruct (truthy_str (cfg_uri C)).
Qed.

(** X1. A resolution that succeeds stores its result: from then on
    [_iter_paths] returns the same list and leaves the stream as it is,
    without any further call to the storage layer. *)
Theorem iter_paths_resolves_once st paths st' :
  _iter_paths L B C st = (Ok paths, st') ->
  _cached_paths st' = Some paths ∧ _iter_paths L B C st' = (Ok paths, st').
Proof.
  intros H.
  assert (Hc : _cached_paths st' = Some paths).
  { destruct (_cached_paths st) as [ps|] eqn:Hst.
    - rewrite (iter_paths_cached st ps Hst) in H. by injection H as -> ->.
    - rewrite (iter_paths_uncached st Hst) in H.
      destruct (cfg_uris C) as [[|u us]|].
      2: { by injection H as <- <-. }
      all: destruct (truthy_str (cfg_uri C)); [|done];
        unfold mbind, M_bind in H;
        destruct (candidate_paths L B _ _ st) as [[c|e] s1]; [|done];
        destruct (apply_pattern L _ c s1) as [[q|e] s2]; [|done];
        simpl in H; by injection H as <- <-. }
  split; [exact Hc | by apply iter_paths_cached].
Qed.

(** X2. A resolution fails in three ways only: no location is configured
    ([ValueError]), the expansion of a glob fails (with the exception of the
    storage layer), or the pattern does not compile. A directory that cannot
    be listed is never among them, and after a failure nothing is cached. *)
Theorem iter_paths_failures st e st' :
  _iter_paths L B C st = (Raise e, st') ->
  _cached_paths st' = None ∧
  ((truthy_str (cfg_uri C) = false ∧
    e = ValueError ("Stream '" +:+ cfg_name C +:+ "' missing 'uri' or 'uris'"))
   ∨ (_looks_like_glob (default "" (cfg_uri C)) = true ∧
      open_files B (default "" (cfg_uri C)) = Raise e)
   ∨ (truthy_str (cfg_pattern C) = true ∧
      re_compile L (default "" (cfg_pattern C)) = None ∧ e = ReError)).
Proof.
  intros H. destruct (_cached_paths st) as [ps|] eqn:Hst.
  { by rewrite (iter_paths_cached st ps Hst) in H. }
  rewrite (iter_paths_uncached st Hst) in H.
  assert (Hrest :
    (if truthy_str (cfg_uri C) then
       (paths ← candidate_paths L B (default "" (cfg_uri C)) (cfg_pattern C);
        paths ← apply_pattern L (cfg_pattern C) paths;
        _ ← set_cached_paths paths;
        mret paths) st
     else
       (Raise (ValueError ("Stream '" +:+ cfg_name C
                           +:+ "' missing 'uri' or 'uris'")), st))
    = (Raise e, st') ->
    _cached_paths st' = None ∧
    ((truthy_str (cfg_uri C) = false ∧
      e = ValueError ("Stream '" +:+ cfg_name C +:+ "' missing 'uri' or 'uris'"))
     ∨ (_looks_like_glob (default "" (cfg_uri C)) = true ∧
        open_files B (default "" (cfg_uri C)) = Raise e)
     ∨ (truthy_str (cfg_pattern C) = true ∧
        re_compile L (default "" (cfg_pattern C)) = None ∧ e = ReError))).
  { clear H. destruct (truthy_str (cfg_uri C)).
    2: { intros [= <- <-]. split; [done|]. by left. }
    unfold mbind, M_bind.
    pose proof (cache_kept_candidate_paths (default "" (cfg_uri C))
                  (cfg_pattern C) st) as Hk1.
    destruct (candidate_paths L B _ _ st) as [[c|e1] s1] eqn:Hcand.
    2: { intros [= <- <-]. simpl in Hk1. split; [congruence|].
         right. left. by eapply candidate_paths_raises. }
    pose proof (cache_kept_apply_pattern (cfg_pattern C) c s1) as Hk2.
    destruct (apply_pattern L _ c s1) as [[q|e2] s2] eqn:Happ; [done|].
    intros [= <- <-]. simpl in Hk1, Hk2. split; [congruence|].
    right. right. by eapply apply_pattern_raises. }
  destruct (cfg_uris C) as [[|u us]|]; [by apply Hrest | done | by apply Hrest].
Qed.

(** X3. The expansion of a glob is resolved in sorted order: the candidates
    are the sorted arrangement of the files the storage layer returns, and
    are the same for every order in which it returns them. *)
Theorem glob_candidates_sorted uri pattern st files :
  _looks_like_glob uri = true ->
  open_files B uri = Ok files ->
  (candidate_paths L B uri pattern st).1 = Ok (sorted files) ∧
  Sorted str_le (sorted files) ∧
  sorted files ≡ₚ files ∧
  ∀ files', files' ≡ₚ files -> sorted files' = sorted files.
Proof.
  intros Hg Hf. split; [|apply sorted_spec].
  unfold candidate_paths. rewrite Hg.
  unfold mbind, M_bind, log, lift, mret, M_ret. by rewrite Hf.
Qed.

Lemma file_names_spec infos names :
  file_names infos = Ok names ->
  ∀ n, n ∈ names ↔ LsInfo (Some n) (Some "file") ∈ infos.
Proof.
  revert names. induction infos as [|[name type|s] infos IH]; intros names; simpl.
  - intros [= <-] n. split; by intros ?%not_elem_of_nil.
  - case_bool_decide as Ht.
    + destruct name as [n0|]; [|done].
      destruct (file_names infos) as [ns|] eqn:Hns; [|done].
      intros [= <-] n. rewrite !elem_of_cons, (IH ns eq_refl n). subst type.
      split; intros [H|H]; auto; left; congruence.
    + intros Hn n. rewrite (IH names Hn n), elem_of_cons.
      split; [auto|]. intros [[= _ <-]|H]; done.
  - done.
Qed.

(** X4. The candidates of a listed directory are exactly its entries of
    type ["file"], each as [scheme://netloc] followed by the entry's name
    with a leading slash: other entries (sub-directories, links) are never
    resolved. *)
Theorem directory_candidates_are_files st uri parsed infos names :
  let uri' := if ends_with_char "/" uri then uri else uri +:+ "/" in
  let remote_dir :=
    let d := if String.eqb (url_path parsed) "" then "/" else url_path parsed in
    if ends_with_char "/" d then drop_last d else d in
  _looks_like_glob uri = false ->
  truthy_str (cfg_pattern C) = true ->
  urlparse L uri' = Some parsed ->
  listdir_detail B uri' remote_dir = Ok infos ->
  (∃ n t infos', infos = LsInfo n t :: infos') ->
  file_names infos = Ok names ->
  ∃ cands,
    (candidate_paths L B uri (cfg_pattern C) st).1 = Ok cands ∧
    ∀ p, p ∈ cands ↔
      ∃ n, LsInfo (Some n) (Some "file") ∈ infos ∧
           p = (url_scheme parsed +:+ "://") +:+ url_netloc parsed
               +:+ (if starts_with_char "/" n then n else "/" +:+ n).
Proof.
  intros uri' remote_dir Hg Hp Hurl Hls Hhead Hnames.
  eexists. split.
  - by apply (directory_candidates_follow_listing L B C st uri parsed infos names).
  - intros p. rewrite list_elem_of_fmap. split.
    + intros (n & -> & Hn). exists n. split; [|done].
      by apply (file_names_spec infos names).
    + intros (n & Hn & ->). exists n. split; [done|].
      by apply (file_names_spec infos names).
Qed.

End PathFurther.

Lemma iter_paths_resolves_once_witness :
  _iter_paths Sample.lib (Sample.listing Sample.inbox) Sample.directory_stream
    new_stream
  = (Ok ["sftp://host/inbox/b.csv"; "sftp://host/inbox/a.csv"],
     Cases.inbox_resolved) ∧
  _iter_paths Sample.lib (Sample.listing Sample.inbox) Sample.directory_stream
    Cases.inbox_resolved
  = (Ok ["sftp://host/inbox/b.csv"; "sftp://host/inbox/a.csv"],
     Cases.inbox_resolved).
Proof.
  split; [reflexivity|].
  exact (proj2 (iter_paths_resolves_once Sample.lib (Sample.listing Sample.inbox)
                  Sample.directory_stream new_stream _ _ eq_refl)).
Defined.

Lemma iter_paths_failures_witness :
  _iter_paths Sample.lib Sample.offline Cases.glob_stream new_stream
  = (Raise (IOError "open_files"),
     {| _cached_paths := None; clock := 0;
        trace := [EvOpenFiles "data/*.csv"] |}) ∧
  _cached_paths {| _cached_paths := None; clock := 0;
                   trace := [EvOpenFiles "data/*.csv"] |} = None.
Proof.
  split; [reflexivity|].
  exact (proj1 (iter_paths_failures Sample.lib Sample.offline Cases.glob_stream
                  new_stream _ _ eq_refl)).
Defined.

Lemma glob_candidates_sorted_witness :
  (_looks_like_glob "data/*.csv" = true ∧
   open_files (Cases.globbing ["data/b.csv"; "data/a.csv"]) "data/*.csv"
   = Ok ["data/b.csv"; "data/a.csv"]) ∧
  (candidate_paths Sample.lib (Cases.globbing ["data/b.csv"; "data/a.csv"])
     "data/*.csv" None new_stream).1
  = Ok ["data/a.csv"; "data/b.csv"].
Proof.
  split; [by split|].
  exact (proj1 (glob_candidates_sorted Sample.lib
                  (Cases.globbing ["data/b.csv"; "data/a.csv"])
                  "data/*.csv" None new_stream ["data/b.csv"; "data/a.csv"]
                  eq_refl eq_refl)).
Defined.

Lemma directory_candidates_are_files_witness :
  (_looks_like_glob "sftp://host/inbox" = false ∧
   truthy_str (cfg_pattern Sample.directory_stream) = true ∧
   urlparse Sample.lib "sftp://host/inbox/" = Some Cases.inbox_url ∧
   listdir_detail (Sample.listing Sample.inbox) "sftp://host/inbox/" "/inbox"
   = Ok Sample.inbox ∧
   file_names Sample.inbox
   = Ok ["/inbox/b.csv"; "/inbox/notes.txt"; "/inbox/a.csv"]) ∧
  ∃ cands,
    (candidate_paths Sample.lib (Sample.listing Sample.inbox)
       "sftp://host/inbox" (cfg_pattern Sample.directory_stream) new_stream).1
    = Ok cands ∧
    ∀ p, p ∈ cands ↔
      ∃ n, LsInfo (Some n) (Some "file") ∈ Sample.inbox ∧
           p = ("sftp" +:+ "://") +:+ "host"
               +:+ (if starts_with_char "/" n then n else "/" +:+ n).
Proof.
  split; [by split_and!|].
  exact (directory_candidates_are_files Sample.lib (Sample.listing Sample.inbox)
           Sample.directory_stream new_stream "sftp://host/inbox"
           Cases.inbox_url Sample.inbox
           ["/inbox/b.csv"; "/inbox/notes.txt"; "/inbox/a.csv"]
           eq_refl eq_refl eq_refl eq_refl
           (ex_intro _ _ (ex_intro _ _ (ex_intro _ _ eq_refl))) eq_refl).
Defined.

(** ** File names, coercion, classification, merging *)

(** X5. The name the pattern is matched against is what follows the last
    slash of the path: it has no slash in it, and the path is that name
    after a prefix that is empty or ends in a slash. *)
Theorem filename_is_last_segment path :
  contains_char "/" (filename path) = false ∧
  ∃ dir, path = dir +:+ filename path ∧
         (dir = "" ∨ ends_with_char "/" dir = true).
Proof.
  unfold filename. destruct (split_last "/" path) as (Hc & dir & Hs & H).
  split; [exact Hc|]. exists dir. split; [exact Hs|].
  destruct H as [[-> _]|[Hd _]]; auto.
Qed.

Section ValueFurther.

Variable L : pylib.

(** X6. Coercion settles in one step: coercing a coerced replication
    value changes nothing. *)
Theorem coerce_replication_value_idempotent v :
  _coerce_replication_value L (_coerce_replication_value L v)
  = _coerce_replication_value L v.
Proof.
  destruct v as [| | | |s| | |]; try done. simpl.
  destruct (isoparse L s) eqn:Hiso; [done|].
  destruct (contains_char "." s) eqn:Hdot.
  - destruct (float_of_str L s) eqn:Hf; simpl; [done|].
    by rewrite Hiso, Hdot, Hf.
  - destruct (int_of_str L s) eqn:Hint; simpl; [done|].
    by rewrite Hiso, Hdot, Hint.
Qed.

(** X7. The classifier and the coercion agree on timestamps: a string is
    tagged ["date-time"] by schema inference exactly when the incremental
    filter compares it as a datetime. *)
Theorem date_time_tag_iff_coerced_datetime s :
  _infer_type_from_value L (PStr s) = "date-time"
  ↔ ∃ d, _coerce_replication_value L (PStr s) = PDatetime d.
Proof.
  simpl. destruct (isoparse L s) as [d|]; simpl.
  - split; [by exists d | done].
  - split; [done|]. intros [d Hd].
    destruct (contains_char "." s);
      [destruct (float_of_str L s) | destruct (int_of_str L s)]; done.
Qed.

End ValueFurther.

(** X8. Merging a tag always leaves that tag in the set, merging it twice
    is the same as merging it once, and the only tag a merge can remove is
    ["integer"], when ["number"] comes in. *)
Theorem merge_types_keeps_tags (types : gset string) (t : string) :
  t ∈ _merge_types types t ∧
  _merge_types (_merge_types types t) t = _merge_types types t ∧
  ∀ x, x ∈ types -> x ∈ _merge_types types t ∨ (x = "integer" ∧ t = "number").
Proof.
  unfold _merge_types. split_and!.
  - set_solver.
  - repeat case_bool_decide; set_solver.
  - intros x Hx. case_bool_decide as H.
    + destruct H as [-> _]. destruct (decide (x = "integer")); set_solver.
    + set_solver.
Qed.

(** ** The emitted properties *)

(** X9. The property emitted for a non-empty set of tags lists ["null"]
    exactly when ["null"] was among the tags, and carries the date-time
    format exactly when ["date-time"] was; for no tags at all it is the
    nullable string. *)
Theorem property_of_types_nullable_format (types : gset string) :
  ("null" ∈ type_tags (p_type (property_of_types types))
   ↔ "null" ∈ types ∨ types = ∅) ∧
  (p_format (property_of_types types) = Some "date-time"
   ↔ "date-time" ∈ types) ∧
  (p_format (property_of_types types) = None ↔ "date-time" ∉ types).
Proof.
  unfold property_of_types.
  destruct (decide ("date-time" ∈ types)) as [Hd|Hd].
  { rewrite bool_decide_eq_true_2 by done.
    destruct (decide ("null" ∈ types)) as [Hn|Hn].
    - rewrite bool_decide_eq_true_2 by done. simpl. split_and!; set_solver.
    - rewrite bool_decide_eq_false_2 by done. simpl. split_and!; set_solver. }
  rewrite bool_decide_eq_false_2 by done.
  set (types' := if bool_decide ("integer" ∈ types ∧ "number" ∈ types)
                 then types ∖ {["integer"]} else types).
  assert (Hnull : "null" ∈ types' ↔ "null" ∈ types).
  { unfold types'. case_bool_decide; set_solver. }
  assert (Hempty : types' = ∅ ↔ types = ∅).
  { unfold types'. case_bool_decide as Hb; [|done]. destruct Hb as [_ Hnum].
    split; intros He; exfalso.
    - assert (Hin : "number" ∈ types ∖ {["integer"]}) by set_solver.
      rewrite He in Hin. set_solver.
    - rewrite He in Hnum. set_solver. }
  clearbody types'.
  assert (Hfmt : ∀ p, p_format p = None ->
            (p_format p = Some "date-time" ↔ "date-time" ∈ types) ∧
            (p_format p = None ↔ "date-time" ∉ types)).
  { intros p ->. split; split; done. }
  destruct (decide (size types' = 0)) as [Hs|Hs].
  { rewrite bool_decide_eq_true_2 by done. apply size_empty_iff in Hs.
    apply leibniz_equiv in Hs. split; [|by apply Hfmt]. simpl.
    split; [intros _; right; by apply Hempty | set_solver]. }
  rewrite bool_decide_eq_false_2 by done.
  assert (Hne : types ≠ ∅).
  { intros He. apply Hs. apply Hempty in He. by rewrite He. }
  destruct (decide ("null" ∈ types')) as [Hn|Hn].
  - rewrite bool_decide_eq_true_2 by done.
    destruct (List.filter _ _) as [|t [|t' l]]; (split; [|by apply Hfmt]); simpl;
      rewrite ?elem_of_sorted_elements; set_solver.
  - rewrite bool_decide_eq_false_2 by done.
    destruct (elements types') as [|t [|t' l]] eqn:He;
      (split; [|by apply Hfmt]); simpl.
    + rewrite elem_of_sorted. set_solver.
    + assert (Ht : t ∈ types') by (apply elem_of_elements; rewrite He; by left).
      rewrite list_elem_of_singleton. split; [intros <-; tauto|].
      intros [?|?]; [tauto|done].
    + rewrite elem_of_sorted, <- He, elem_of_elements. tauto.
Qed.

Lemma requires_many l f :
  requires {| p_type := TMany l; p_format := f |} = true ↔ "null" ∉ l.
Proof. unfold requires. simpl. by rewrite negb_true_iff, bool_decide_eq_false. Qed.

(** A field is taken as required exactly when tags were seen for it and
    ["null"] was not among them. *)
Lemma requires_property_of_types (types : gset string) :
  requires (property_of_types types) = true ↔ types ≠ ∅ ∧ "null" ∉ types.
Proof.
  unfold property_of_types, nullable_string.
  destruct (decide ("date-time" ∈ types)) as [Hd|Hd].
  { rewrite bool_decide_eq_true_2 by done.
    destruct (decide ("null" ∈ types)) as [Hn|Hn].
    - rewrite bool_decide_eq_true_2 by done. rewrite requires_many.
      split; [set_solver | tauto].
    - rewrite bool_decide_eq_false_2 by done. split; [|done].
      intros _. split; [set_solver|done]. }
  rewrite bool_decide_eq_false_2 by done.
  set (types' := if bool_decide ("integer" ∈ types ∧ "number" ∈ types)
                 then types ∖ {["integer"]} else types).
  assert (Hnull : "null" ∈ types' ↔ "null" ∈ types).
  { unfold types'. case_bool_decide; set_solver. }
  assert (Hempty : types' = ∅ ↔ types = ∅).
  { unfold types'. case_bool_decide as Hb; [|done]. destruct Hb as [_ Hnum].
    split; intros He; exfalso.
    - assert (Hin : "number" ∈ types ∖ {["integer"]}) by set_solver.
      rewrite He in Hin. set_solver.
    - rewrite He in Hnum. set_solver. }
  clearbody types'.
  destruct (decide (size types' = 0)) as [Hs|Hs].
  { rewrite bool_decide_eq_true_2 by done. apply size_empty_iff in Hs.
    apply leibniz_equiv in Hs. rewrite requires_many.
    split; [set_solver|]. intros [Hne _]. exfalso. by apply Hne, Hempty. }
  rewrite bool_decide_eq_false_2 by done.
  assert (Hne : types ≠ ∅).
  { intros He. apply Hs. apply Hempty in He. by rewrite He. }
  destruct (decide ("null" ∈ types')) as [Hn|Hn].
  - rewrite bool_decide_eq_true_2 by done.
    assert (Hin : "null" ∈ sorted (elements types'))
      by by apply elem_of_sorted_elements.
    destruct (List.filter _ _) as [|t [|t' l]]; rewrite requires_many;
      (split; [set_solver|]); intros [_ H]; exfalso; by apply H, Hnull.
  - rewrite bool_decide_eq_false_2 by done.
    assert (Hnot : "null" ∉ sorted (elements types'))
      by by rewrite elem_of_sorted_elements.
    destruct (elements types') as [|t [|t' l]] eqn:He;
      rewrite ?requires_many; (split; [intros _|done]);
      split; try done; by rewrite <- Hnull.
Qed.

(** ** What sampling records about the fields *)

Section DictKeys.

Context {V : Type}.
Implicit Types d : list (string * V).

Lemma dict_get_None k d : dict_get k d = None ↔ k ∉ d.*1.
Proof.
  induction d as [|[k' v] d IH]; simpl.
  - split; [intros _; apply not_elem_of_nil | done].
  - rewrite not_elem_of_cons. destruct (String.eqb k k') eqn:E.
    + apply String.eqb_eq in E. split; [done | tauto].
    + apply String.eqb_neq in E. rewrite IH. tauto.
Qed.

Lemma dict_get_Some_elem k v d : dict_get k d = Some v -> (k, v) ∈ d.
Proof.
  induction d as [|[k' v'] d IH]; simpl; [done|].
  destruct (String.eqb k k') eqn:E.
  - apply String.eqb_eq in E as ->. intros [= ->]. by left.
  - intros H. right. by apply IH.
Qed.

Lemma dict_get_NoDup k v d : NoDup d.*1 -> (k, v) ∈ d -> dict_get k d = Some v.
Proof.
  induction d as [|[k' v'] d IH]; simpl; [by intros _ ?%not_elem_of_nil|].
  intros [Hk' Hnd]%NoDup_cons [[= -> ->]|Hin]%elem_of_cons.
  - by rewrite String.eqb_refl.
  - destruct (String.eqb k k') eqn:E; [|by apply IH].
    apply String.eqb_eq in E as ->. exfalso. apply Hk'.
    apply list_elem_of_fmap. by exists (k', v).
Qed.

Lemma dict_set_keys k v d :
  (dict_set k v d).*1 = if dict_mem k d then d.*1 else d.*1 ++ [k].
Proof.
  unfold dict_mem. induction d as [|[k' v'] d IH]; [done|].
  cbn [dict_set dict_get]. destruct (String.eqb k k') eqn:E.
  - by apply String.eqb_eq in E as ->.
  - rewrite !fmap_cons, IH. by destruct (dict_get k d).
Qed.

Lemma dict_set_NoDup k v d : NoDup d.*1 -> NoDup (dict_set k v d).*1.
Proof.
  intros Hnd. rewrite dict_set_keys. unfold dict_mem.
  destruct (dict_get k d) eqn:E; [done|].
  apply NoDup_app. split_and!; [done | | apply NoDup_singleton].
  intros x Hx ->%list_elem_of_singleton. by apply dict_get_None in E.
Qed.

End DictKeys.

Lemma merge_types_elem (types : gset string) t x :
  x ∈ _merge_types types t -> x ∈ types ∨ x = t.
Proof. unfold _merge_types. case_bool_decide; set_solver. Qed.

Lemma merge_types_null (types : gset string) t :
  "null" ∈ _merge_types types t ↔ "null" ∈ types ∨ t = "null".
Proof. unfold _merge_types. case_bool_decide; set_solver. Qed.

Lemma merge_types_nonempty (types : gset string) t : _merge_types types t ≠ ∅.
Proof. unfold _merge_types. set_solver. Qed.

Section Observation.

Variable L : pylib.

Lemma infer_type_null v : _infer_type_from_value L v = "null" ↔ v = PNone.
Proof.
  destruct v; simpl; try done.
  by destruct (isoparse L s).
Qed.

(** One observation, as the body of the loop over the items of a record
    makes it. *)
Lemma observe_record_cons type_map k v rec :
  observe_record L type_map ((k, v) :: rec)
  = observe_record L
      (dict_set k
         (_merge_types (default ∅ (dict_get k type_map))
            (_infer_type_from_value L v))
         (if dict_mem k type_map then type_map else dict_set k ∅ type_map))
      rec.
Proof.
  unfold observe_record. simpl. unfold dict_mem.
  destruct (dict_get k type_map) eqn:E; rewrite ?E; [done|].
  by rewrite dict_get_set_eq.
Qed.

Lemma observes_step type_map fields k v :
  observes L type_map fields ->
  observes L
    (dict_set k
       (_merge_types (default ∅ (dict_get k type_map))
          (_infer_type_from_value L v))
       (if dict_mem k type_map then type_map else dict_set k ∅ type_map))
    (fields ++ [(k, v)]).
Proof.
  intros [Hnd H]. split.
  { apply dict_set_NoDup. destruct (dict_mem k type_map); [done|].
    by apply dict_set_NoDup. }
  intros k'. destruct (String.eqb k' k) eqn:E.
  - apply String.eqb_eq in E as ->. rewrite dict_get_set_eq.
    specialize (H k). split_and!.
    + apply merge_types_nonempty.
    + intros t [Ht| ->]%merge_types_elem.
      * destruct (dict_get k type_map) as [T|]; [|set_solver].
        destruct H as (_ & Htags & _). destruct (Htags t Ht) as (v' & Hv' & ->).
        exists v'. split; [|done]. apply elem_of_app. by left.
      * exists v. split; [|done]. apply elem_of_app. right. by left.
    + rewrite merge_types_null, infer_type_null, elem_of_app,
        list_elem_of_singleton.
      destruct (dict_get k type_map) as [T|]; simpl.
      * destruct H as (_ & _ & ->). split; intros [?|?]; auto; right; congruence.
      * split; [intros [?|?]; [set_solver | right; congruence]|].
        intros [Hin|?]; [by apply H in Hin | right; congruence].
  - assert (Hget : dict_get k'
       (dict_set k
          (_merge_types (default ∅ (dict_get k type_map))
             (_infer_type_from_value L v))
          (if dict_mem k type_map then type_map else dict_set k ∅ type_map))
       = dict_get k' type_map).
    { rewrite dict_get_set_ne by done.
      destruct (dict_mem k type_map); [done|]. by rewrite dict_get_set_ne. }
    rewrite Hget. specialize (H k'). apply String.eqb_neq in E.
    assert (Hin : ∀ x, (k', x) ∈ fields ++ [(k, v)] ↔ (k', x) ∈ fields).
    { intros x. rewrite elem_of_app, list_elem_of_singleton.
      split; [intros [?|?]; [done|congruence] | auto]. }
    destruct (dict_get k' type_map) as [T|].
    + destruct H as (Hne & Htags & Hnull). split_and!; [done| |].
      * intros t Ht. destruct (Htags t Ht) as (x & Hx & ->).
        exists x. by rewrite Hin.
      * by rewrite Hin.
    + intros x. by rewrite Hin.
Qed.

Lemma observes_record rec : ∀ type_map fields,
  observes L type_map fields ->
  observes L (observe_record L type_map rec) (fields ++ rec).
Proof.
  induction rec as [|[k v] rec IH]; intros type_map fields H.
  - by rewrite app_nil_r.
  - rewrite observe_record_cons, (cons_middle _ fields rec), app_assoc.
    by apply IH, observes_step.
Qed.

Lemma observes_samples samples :
  observes L (observe_samples L samples) (concat samples).
Proof.
  unfold observe_samples.
  assert (Hgen : ∀ type_map fields, observes L type_map fields ->
            observes L (fold_left (observe_record L) samples type_map)
              (fields ++ concat samples)).
  { induction samples as [|rec samples IH]; intros type_map fields H; simpl.
    - by rewrite app_nil_r.
    - rewrite app_assoc. by apply IH, observes_record. }
  apply (Hgen [] []). split; [constructor|]. intros k v. apply not_elem_of_nil.
Qed.

End Observation.

Lemma elem_of_concat {A : Type} (x : A) (ls : list (list A)) :
  x ∈ concat ls ↔ ∃ l, l ∈ ls ∧ x ∈ l.
Proof.
  induction ls as [|l ls IH]; simpl.
  - split; [by intros ?%not_elem_of_nil | by intros (l & ?%not_elem_of_nil & _)].
  - rewrite elem_of_app, IH. split.
    + intros [H|(l' & H1 & H2)]; [exists l; split; [by left|done]|].
      exists l'. split; [by right|done].
    + intros (l' & [->|H1]%elem_of_cons & H2); [by left|]. right. eauto.
Qed.

Lemma required_of_cons name p properties :
  required_of ((name, p) :: properties)
  = if String.eqb name "_sdc_extracted_at" then required_of properties
    else if requires p then name :: required_of properties
    else required_of properties.
Proof.
  simpl. destruct (String.eqb name "_sdc_extracted_at"); [done|].
  unfold requires. destruct (p_type p); [done|]. by case_bool_decide.
Qed.

(** With distinct keys, the required-fields loop takes the fields other
    than the extraction timestamp whose property asks for it. *)
Lemma required_of_spec properties :
  NoDup properties.*1 ->
  ∀ k, k ∈ required_of properties ↔
       k ≠ "_sdc_extracted_at" ∧
       ∃ p, dict_get k properties = Some p ∧ requires p = true.
Proof.
  induction properties as [|[name p] properties IH]; intros Hnd k.
  { simpl. split; [by intros ?%not_elem_of_nil | by intros (_ & p & ? & _)]. }
  apply NoDup_cons in Hnd as [Hname Hnd]. specialize (IH Hnd).
  assert (Hrest : k = name -> k ∉ required_of properties).
  { intros -> (_ & q & Hq & _)%IH. apply Hname.
    apply dict_get_Some_elem in Hq. apply list_elem_of_fmap. by exists (name, q). }
  rewrite required_of_cons. cbn [dict_get].
  destruct (String.eqb k name) eqn:Ek.
  - apply String.eqb_eq in Ek as ->. specialize (Hrest eq_refl).
    destruct (String.eqb name "_sdc_extracted_at") eqn:Es.
    + apply String.eqb_eq in Es. split; [done | tauto].
    + apply String.eqb_neq in Es. destruct (requires p) eqn:Hp.
      * split; [intros _; split; [done|]; by exists p | intros _; by left].
      * split; [done|]. intros (_ & q & [= <-] & Hq). congruence.
  - apply String.eqb_neq in Ek.
    destruct (String.eqb name "_sdc_extracted_at"); [apply IH|].
    destruct (requires p); [|apply IH].
    rewrite elem_of_cons, IH. split; [intros [?|?]; [done|tauto] | tauto].
Qed.

Section SchemaFurther.

Variable L : pylib.
Variable C : stream_config.

Lemma ensure_replication_key_get properties k p :
  dict_get k (ensure_replication_key C properties) = Some p ->
  dict_get k properties = Some p
  ∨ (dict_get k properties = None ∧ requires p = false).
Proof.
  unfold ensure_replication_key, replication_key.
  destruct (cfg_replication_key C) as [key|]; [|auto].
  destruct (negb (String.eqb key "") && negb (dict_mem key properties)) eqn:E;
    [|auto].
  apply andb_true_iff in E as [_ Hmem%negb_true_iff]. unfold dict_mem in Hmem.
  destruct (String.eqb k key) eqn:Ek.
  - apply String.eqb_eq in Ek as ->.
    destruct (dict_get key properties) eqn:Hg; [done|].
    destruct (String.eqb key "_sdc_extracted_at");
      rewrite dict_get_set_eq; intros [= <-]; by right.
  - destruct (String.eqb key "_sdc_extracted_at");
      rewrite dict_get_set_ne by done; auto.
Qed.

Lemma ensure_replication_key_keeps properties k p :
  dict_get k properties = Some p ->
  dict_get k (ensure_replication_key C properties) = Some p.
Proof.
  intros Hk. unfold ensure_replication_key, replication_key.
  destruct (cfg_replication_key C) as [key|]; [|done].
  destruct (negb (String.eqb key "") && negb (dict_mem key properties)) eqn:E;
    [|done].
  apply andb_true_iff in E as [_ Hmem%negb_true_iff]. unfold dict_mem in Hmem.
  assert (String.eqb k key = false).
  { destruct (String.eqb k key) eqn:Ek; [|done].
    apply String.eqb_eq in Ek as ->. by rewrite Hk in Hmem. }
  destruct (String.eqb key "_sdc_extracted_at"); by rewrite dict_get_set_ne.
Qed.

Lemma ensure_replication_key_NoDup properties :
  NoDup properties.*1 -> NoDup (ensure_replication_key C properties).*1.
Proof.
  intros Hnd. unfold ensure_replication_key.
  destruct (replication_key C) as [key|]; [|done].
  destruct (_ && _); [|done].
  destruct (String.eqb key "_sdc_extracted_at"); by apply dict_set_NoDup.
Qed.

Lemma ensure_primary_keys_get k p : ∀ properties,
  dict_get k (ensure_primary_keys C properties) = Some p ->
  dict_get k properties = Some p
  ∨ (dict_get k properties = None ∧ requires p = false).
Proof.
  unfold ensure_primary_keys, primary_keys.
  induction (cfg_keys C) as [|pk pks IH]; intros properties; simpl; [auto|].
  intros [H|[H Hp]]%IH; unfold dict_mem in H;
    destruct (dict_get pk properties) eqn:Hpk; auto.
  - destruct (String.eqb k pk) eqn:Ek.
    + apply String.eqb_eq in Ek as ->. rewrite dict_get_set_eq in H.
      injection H as <-. right. by rewrite Hpk.
    + rewrite dict_get_set_ne in H by done. by left.
  - destruct (String.eqb k pk) eqn:Ek.
    + apply String.eqb_eq in Ek as ->. by rewrite dict_get_set_eq in H.
    + rewrite dict_get_set_ne in H by done. by right.
Qed.

Lemma ensure_primary_keys_NoDup : ∀ properties,
  NoDup properties.*1 -> NoDup (ensure_primary_keys C properties).*1.
Proof.
  unfold ensure_primary_keys, primary_keys.
  induction (cfg_keys C) as [|pk pks IH]; intros properties Hnd; simpl; [done|].
  apply IH. destruct (dict_mem pk properties); [done|]. by apply dict_set_NoDup.
Qed.

Lemma fold_primary_keys_keeps k p (pks : list string) : ∀ properties,
  dict_get k properties = Some p ->
  dict_get k
    (fold_left
       (fun properties pk =>
          if dict_mem pk properties then properties
          else dict_set pk nullable_string properties)
       pks properties) = Some p.
Proof.
  induction pks as [|pk pks IH]; intros properties Hk; [done|].
  simpl. apply IH. unfold dict_mem.
  destruct (dict_get pk properties) eqn:Hpk; [done|].
  rewrite dict_get_set_ne; [done|].
  destruct (String.eqb k pk) eqn:E; [|done].
  apply String.eqb_eq in E as ->. congruence.
Qed.

Lemma ensure_primary_keys_adds pk : ∀ properties,
  pk ∈ cfg_keys C -> is_Some (dict_get pk (ensure_primary_keys C properties)).
Proof.
  unfold ensure_primary_keys, primary_keys.
  induction (cfg_keys C) as [|pk' pks IH]; intros properties Hin;
    [by apply not_elem_of_nil in Hin|].
  simpl. apply elem_of_cons in Hin as [<-|Hin]; [|by apply IH].
  assert (Hhere : is_Some (dict_get pk
            (if dict_mem pk properties then properties
             else dict_set pk nullable_string properties))).
  { unfold dict_mem. destruct (dict_get pk properties) eqn:E; [by rewrite E|].
    by rewrite dict_get_set_eq. }
  destruct Hhere as [p Hp].
  exists p. by apply fold_primary_keys_keeps.
Qed.

Lemma observed_properties_NoDup samples :
  NoDup (properties_of_samples L C samples).*1.
Proof.
  unfold properties_of_samples.
  apply ensure_primary_keys_NoDup, ensure_replication_key_NoDup.
  destruct (observes_samples L samples) as [Hnd _].
  assert (Hfst : ∀ tm : list (string * gset string),
            (map (λ '(k, types), (k, property_of_types types)) tm).*1 = tm.*1).
  { induction tm as [|[k T] tm IH]; [done|]. cbn [map]. by rewrite !fmap_cons, IH. }
  by rewrite Hfst.
Qed.

(** The property of a field in the schema: the one emitted from its tags
    when the field was observed, a synthesized nullable one otherwise. *)
Lemma properties_of_samples_get samples k p :
  dict_get k (properties_of_samples L C samples) = Some p ->
  (∃ types, dict_get k (observe_samples L samples) = Some types
            ∧ p = property_of_types types)
  ∨ (dict_get k (observe_samples L samples) = None ∧ requires p = false).
Proof.
  unfold properties_of_samples.
  intros [H|[H Hp]]%ensure_primary_keys_get.
  - apply ensure_replication_key_get in H as [H|[H Hp]].
    + rewrite dict_get_map in H.
      destruct (dict_get k (observe_samples L samples)) as [T|]; [|done].
      injection H as <-. left. by exists T.
    + rewrite dict_get_map in H.
      destruct (dict_get k (observe_samples L samples)); [done|]. by right.
  - right. split; [|done].
    destruct (dict_get k (ensure_replication_key C _)) eqn:E; [done|].
    destruct (dict_get k (observe_samples L samples)) as [T|] eqn:ET; [|done].
    exfalso. erewrite ensure_replication_key_keeps in E; [done|].
    by rewrite dict_get_map, ET.
Qed.

Lemma properties_of_samples_observed samples k types :
  dict_get k (observe_samples L samples) = Some types ->
  dict_get k (properties_of_samples L C samples) = Some (property_of_types types).
Proof.
  intros H. unfold properties_of_samples.
  apply (ensure_primary_keys_keeps C), ensure_replication_key_keeps.
  by rewrite (dict_get_map property_of_types), H.
Qed.

Lemma schema_required_of_samples samples :
  schema_required (schema_of_samples L C samples)
  = map JStr (required_of (properties_of_samples L C samples)).
Proof.
  unfold schema_required, schema_of_samples. simpl.
  by destruct (required_of _).
Qed.

(** X10. A field is in the schema's required list exactly when it is not
    the extraction timestamp, some sampled record has it, and no sampled
    record has it with the value [None]. A field missing from some of the
    sampled records is still required. *)
Theorem required_fields_spec samples k :
  JStr k ∈ schema_required (schema_of_samples L C samples) ↔
  k ≠ "_sdc_extracted_at" ∧ (∃ v, seen k v samples) ∧ ¬ seen k PNone samples.
Proof.
  rewrite schema_required_of_samples.
  assert (Hstr : JStr k ∈ map JStr (required_of (properties_of_samples L C samples))
                 ↔ k ∈ required_of (properties_of_samples L C samples)).
  { rewrite list_elem_of_fmap. split; [by intros (x & [= ->] & ?) | eauto]. }
  rewrite Hstr, (required_of_spec _ (observed_properties_NoDup samples)).
  assert (Hseen : ∀ v, seen k v samples ↔ (k, v) ∈ concat samples).
  { intros v. unfold seen. by rewrite elem_of_concat. }
  destruct (observes_samples L samples) as [_ Hobs]. specialize (Hobs k).
  split.
  - intros (Hk & p & Hp & Hreq). split; [done|].
    apply properties_of_samples_get in Hp as [(T & HT & ->)|[_ ?]]; [|congruence].
    rewrite HT in Hobs. destruct Hobs as (Hne & Htags & Hnull).
    apply requires_property_of_types in Hreq as [_ Hnn].
    split; [|by rewrite Hseen, <- Hnull].
    destruct (set_choose_L T Hne) as [t Ht].
    destruct (Htags t Ht) as (v & Hv & _). exists v. by apply Hseen.
  - intros (Hk & [v Hv] & Hnone). split; [done|].
    apply Hseen in Hv. rewrite Hseen in Hnone.
    destruct (dict_get k (observe_samples L samples)) as [T|] eqn:HT;
      [|by apply Hobs in Hv].
    destruct Hobs as (Hne & _ & Hnull).
    exists (property_of_types T). split; [by apply properties_of_samples_observed|].
    apply requires_property_of_types. split; [done|]. by rewrite Hnull.
Qed.

(** X11. Every configured primary key and the configured replication key
    have a property in the schema, whatever was sampled, also when nothing
    was. *)
Theorem key_fields_in_schema samples k :
  k ∈ cfg_keys C ∨ (cfg_replication_key C = Some k ∧ k ≠ "") ->
  is_Some (json_field "properties" (schema_of_samples L C samples)
           ≫= json_field k).
Proof.
  intros Hk. rewrite schema_of_samples_property.
  apply fmap_is_Some. unfold properties_of_samples.
  destruct Hk as [Hk|[Hk Hne]]; [by apply ensure_primary_keys_adds|].
  set (properties := map (λ '(k, types), (k, property_of_types types))
                        (observe_samples L samples)).
  assert (Hrk : is_Some (dict_get k (ensure_replication_key C properties))).
  { unfold ensure_replication_key, replication_key, dict_mem. rewrite Hk.
    apply String.eqb_neq in Hne. rewrite Hne. simpl.
    destruct (dict_get k properties) eqn:E; simpl; [by rewrite E|].
    destruct (String.eqb k "_sdc_extracted_at"); by rewrite dict_get_set_eq. }
  destruct Hrk as [p Hp]. exists p. by apply (ensure_primary_keys_keeps C).
Qed.

End SchemaFurther.

Lemma key_fields_in_schema_witness :
  ("id" ∈ cfg_keys Sample.stamped_stream
   ∨ (cfg_replication_key Sample.stamped_stream = Some "id" ∧ "id" ≠ "")) ∧
  is_Some (json_field "properties"
             (schema_of_samples Sample.lib Sample.stamped_stream [])
           ≫= json_field "id").
Proof.
  assert (H : "id" ∈ cfg_keys Sample.stamped_stream
              ∨ (cfg_replication_key Sample.stamped_stream = Some "id"
                 ∧ "id" ≠ "")).
  { left. simpl. by left. }
  split; [exact H|].
  exact (key_fields_in_schema Sample.lib Sample.stamped_stream [] "id" H).
Defined.

(** ** Reading and emitting records *)

Section RecordsFurther.

Variable L : pylib.
Variable B : backend.
Variable C : stream_config.

Lemma yield_counted_limit limit : ∀ recs count out count' returned,
  yield_counted (Some limit) count recs = (out, count', returned) ->
  count' = (count + Z.of_nat (List.length out))%Z ∧
  out `prefix_of` recs ∧
  (Z.of_nat (List.length out) ≤ Z.max 1 (limit - count))%Z ∧
  (returned = false -> out = recs ∧ (recs = [] ∨ (count' < limit)%Z)).
Proof.
  induction recs as [|rec recs IH]; intros count out count' returned; simpl.
  { intros [= <- <- <-]. simpl. split_and!; [lia | done | lia | auto]. }
  destruct (limit <=? count + 1)%Z eqn:E.
  - intros [= <- <- <-]. simpl. split_and!; [lia | | lia | done].
    by apply prefix_cons, prefix_nil.
  - apply Z.leb_gt in E.
    destruct (yield_counted (Some limit) (count + 1) recs)
      as [[out1 count1] ret1] eqn:Hy.
    intros [= <- <- <-].
    destruct (IH _ _ _ _ Hy) as (Hc & Hp & Hl & Hr). simpl length.
    split_and!; [lia | by apply prefix_cons | lia |].
    intros Hret. destruct (Hr Hret) as [-> Hcases]. split; [done|]. right.
    destruct Hcases as [->|?]; simpl in *; lia.
Qed.

Lemma yield_counted_unlimited : ∀ recs count,
  yield_counted None count recs
  = (recs, (count + Z.of_nat (List.length recs))%Z, false).
Proof.
  induction recs as [|rec recs IH]; intros count; simpl.
  - do 2 f_equal. lia.
  - rewrite IH. do 2 f_equal. lia.
Qed.

Lemma iter_resources_bounded fmt limit : ∀ paths count,
  (Z.of_nat (List.length (iter_resources B C fmt (Some limit) count paths).1)
   ≤ Z.max 1 (limit - count))%Z.
Proof.
  induction paths as [|p paths IH]; intros count; simpl; [lia|].
  destruct (supported_format fmt); [|simpl; lia].
  destruct (read_format B fmt p) as [recs err].
  destruct (yield_counted (Some limit) count recs) as [[out count'] ret] eqn:Hy.
  destruct (yield_counted_limit _ _ _ _ _ _ Hy) as (Hc & _ & Hl & Hr).
  destruct ret; [done|]. destruct err; [done|].
  specialize (IH count').
  destruct (iter_resources B C fmt (Some limit) count' paths) as [out' err'].
  simpl in *. rewrite length_app.
  destruct (Hr eq_refl) as [-> [->|Hlt]]; simpl in *; lia.
Qed.

(** X12. Reading with a limit yields at most that many records, and one
    record when the limit is zero or negative: the limit is only looked at
    after a record has been yielded. *)
Theorem iter_records_raw_bounded limit st :
  (Z.of_nat (List.length (_iter_records_raw L B C (Some limit) st).1.1)
   ≤ Z.max 1 limit)%Z.
Proof.
  unfold _iter_records_raw.
  destruct ((_ ← log (EvIterRecordsRaw (Some limit)); _iter_paths L B C) st)
    as [[paths|e] st']; simpl; [|lia].
  pose proof (iter_resources_bounded
                (lower (default "csv" (cfg_format C))) limit paths 0) as H.
  by rewrite Z.sub_0_r in H.
Qed.

(** X13. What a read with a limit yields is a prefix of what a read of the
    same resources without a limit yields: sampling sees the first records
    of a full run, in the same order. *)
Theorem limited_read_is_prefix fmt limit paths :
  (iter_resources B C fmt (Some limit) 0 paths).1
  `prefix_of` (iter_resources B C fmt None 0 paths).1.
Proof.
  generalize 0%Z at 1 as c. generalize 0%Z as c'.
  induction paths as [|p paths IH]; intros c' c; simpl; [done|].
  destruct (supported_format fmt); [|done].
  destruct (read_format B fmt p) as [recs err].
  rewrite yield_counted_unlimited.
  destruct (yield_counted (Some limit) c recs) as [[out count'] ret] eqn:Hy.
  destruct (yield_counted_limit _ _ _ _ _ _ Hy) as (_ & Hp & _ & Hr).
  destruct ret.
  - destruct err; simpl; [done|].
    destruct (iter_resources B C fmt None _ paths) as [out' err'].
    simpl. by apply prefix_app_r.
  - destruct (Hr eq_refl) as [-> _]. destruct err; [done|].
    specialize (IH (c' + Z.of_nat (List.length recs))%Z count').
    destruct (iter_resources B C fmt (Some limit) count' paths) as [o1 e1].
    destruct (iter_resources B C fmt None _ paths) as [o2 e2].
    simpl in *. by apply prefix_app.
Qed.

(** X14. When the format is supported and no resource fails, a read
    without a limit yields the records of all resources, resource after
    resource in the order of the paths, and ends without an exception. *)
Theorem full_read_concatenates fmt paths :
  supported_format fmt = true ->
  (∀ p, p ∈ paths -> (read_format B fmt p).2 = None) ->
  iter_resources B C fmt None 0 paths
  = (concat (map (fun p => (read_format B fmt p).1) paths), None).
Proof.
  intros Hf. generalize 0%Z as c.
  induction paths as [|p paths IH]; intros c Hall; simpl; [done|].
  rewrite Hf. pose proof (Hall p ltac:(by left)) as Hp.
  destruct (read_format B fmt p) as [recs err]. simpl in Hp. subst err.
  rewrite yield_counted_unlimited, IH; [done|].
  intros q Hq. apply Hall. by right.
Qed.

(** X15. The records a run emits are, in order, some of the raw records
    as stamped: the filter drops records but never reorders, repeats or
    invents one. The run ends as the raw iterator does unless a comparison
    raises [TypeError]. *)
Theorem emit_records_sublist key start_val extraction_time recs err :
  (emit_records L key start_val extraction_time recs err).1
  `sublist_of` map (stamp key extraction_time) recs ∧
  ((emit_records L key start_val extraction_time recs err).2 = err ∨
   (emit_records L key start_val extraction_time recs err).2 = Some TypeError).
Proof.
  induction recs as [|rec recs [IHs IHe]]; simpl; [split; [done|by left]|].
  assert (Hp : process_record L key start_val extraction_time rec
               = Ok (Some (stamp key extraction_time rec))
             ∨ process_record L key start_val extraction_time rec = Ok None
             ∨ process_record L key start_val extraction_time rec
               = Raise TypeError).
  { unfold process_record.
    destruct (if truthy_str key then start_val else None); [|by left].
    destruct (_coerce_replication_value L _); try by left.
    all: unfold py_le; destruct (py_compare _ _) as [[]| |]; auto. }
  destruct Hp as [-> | [-> | ->]].
  - destruct (emit_records L key start_val extraction_time recs err).
    simpl in *. split; [by apply sublist_skip | done].
  - split; [by apply sublist_cons | done].
  - simpl. split; [apply sublist_nil_l | by right].
Qed.

Lemma emit_records_without_cursor key extraction_time recs err :
  emit_records L key None extraction_time recs err
  = (map (stamp key extraction_time) recs, err).
Proof.
  induction recs as [|rec recs IH]; simpl; [done|].
  by rewrite process_record_no_cursor, IH.
Qed.

(** X16. A stream without a replication key emits exactly the raw
    records, unchanged and in order, and ends as the raw iterator does,
    whatever cursor the state layer holds. *)
Theorem full_table_run_emits_raw st :
  truthy_str (replication_key C) = false ->
  (get_records L B C st).1
  = (_iter_records_raw L B C None (utcnow B st).2).1.
Proof.
  intros Hk. unfold get_records. rewrite Hk. simpl.
  destruct (_iter_records_raw L B C None _) as [[recs err] st']. simpl.
  rewrite emit_records_without_cursor. f_equal.
  assert (Hid : ∀ rec, stamp (replication_key C) (utcnow_isoformat B (clock st) +:+ "Z") rec = rec).
  { intros rec. unfold stamp. case_bool_decide as E; [|done].
    rewrite E in Hk. done. }
  induction recs as [|rec recs IH]; [done|]. simpl. by rewrite Hid, IH.
Qed.

End RecordsFurther.

Lemma full_read_concatenates_witness :
  (supported_format "csv" = true ∧
   ∀ p, p ∈ ["a.csv"; "b.csv"] ->
        (read_format (Sample.reading Sample.rows None) "csv" p).2 = None) ∧
  iter_resources (Sample.reading Sample.rows None) Sample.stamped_stream
    "csv" None 0 ["a.csv"; "b.csv"]
  = (Sample.rows ++ Sample.rows, None).
Proof.
  assert (H : ∀ p, p ∈ ["a.csv"; "b.csv"] ->
            (read_format (Sample.reading Sample.rows None) "csv" p).2 = None)
    by done.
  split; [by split|].
  exact (full_read_concatenates (Sample.reading Sample.rows None)
           Sample.stamped_stream "csv" ["a.csv"; "b.csv"] eq_refl H).
Defined.

Lemma full_table_run_emits_raw_witness :
  truthy_str (replication_key Sample.empty_schema_stream) = false ∧
  (get_records Sample.lib (Sample.reading Sample.rows (Some (CInt 5)))
     Sample.empty_schema_stream new_stream).1
  = (Sample.rows, None).
Proof.
  split; [reflexivity|].
  exact (full_table_run_emits_raw Sample.lib
           (Sample.reading Sample.rows (Some (CInt 5)))
           Sample.empty_schema_stream new_stream eq_refl).
Defined.

(** ** Type names in the schema *)

Section TypeNames.

Variable L : pylib.
Variable C : stream_config.

Lemma infer_type_range v :
  _infer_type_from_value L v ∈ "date-time" :: json_type_names.
Proof.
  unfold json_type_names.
  destruct v; simpl; try (destruct (isoparse L s)); set_solver.
Qed.

Lemma property_of_types_names (types : gset string) :
  (∀ t, t ∈ types -> t ∈ "date-time" :: json_type_names) ->
  ∀ t, t ∈ type_tags (p_type (property_of_types types)) -> t ∈ json_type_names.
Proof.
  intros Hall. unfold property_of_types.
  destruct (decide ("date-time" ∈ types)) as [Hd|Hd].
  { rewrite bool_decide_eq_true_2 by done. unfold json_type_names.
    destruct (bool_decide ("null" ∈ types)); simpl; set_solver. }
  rewrite bool_decide_eq_false_2 by done.
  set (types' := if bool_decide ("integer" ∈ types ∧ "number" ∈ types)
                 then types ∖ {["integer"]} else types).
  assert (Hsub : ∀ t, t ∈ types' -> t ∈ json_type_names).
  { intros t Ht. assert (Ht' : t ∈ types).
    { unfold types' in Ht. case_bool_decide; set_solver. }
    specialize (Hall t Ht'). apply elem_of_cons in Hall as [->|?]; done. }
  clearbody types'.
  destruct (bool_decide (size types' = 0)).
  { unfold json_type_names. simpl. set_solver. }
  destruct (bool_decide ("null" ∈ types')).
  - destruct (List.filter _ _) as [|t0 [|t1 l]] eqn:Hf; simpl;
      intros t; rewrite ?elem_of_sorted_elements; auto.
    assert (Ht0 : t0 ∈ types').
    { apply elem_of_sorted_elements, list_elem_of_In.
      eapply (proj1 (filter_In _ _ _)). rewrite Hf. by left. }
    intros [->|[->|?%not_elem_of_nil]%elem_of_cons]%elem_of_cons; [auto| |done].
    unfold json_type_names. set_solver.
  - destruct (elements types') as [|t0 [|t1 l]] eqn:He; simpl;
      intros t; rewrite ?elem_of_sorted, <- ?He, ?elem_of_elements; auto.
Qed.

Lemma ensure_replication_key_synth properties k p :
  dict_get k (ensure_replication_key C properties) = Some p ->
  dict_get k properties = Some p
  ∨ (dict_get k properties = None
     ∧ (p = nullable_string ∨ p = nullable_date_time)).
Proof.
  unfold ensure_replication_key, replication_key.
  destruct (cfg_replication_key C) as [key|]; [|auto].
  destruct (negb (String.eqb key "") && negb (dict_mem key properties)) eqn:E;
    [|auto].
  apply andb_true_iff in E as [_ Hmem%negb_true_iff]. unfold dict_mem in Hmem.
  destruct (String.eqb k key) eqn:Ek.
  - apply String.eqb_eq in Ek as ->.
    destruct (dict_get key properties) eqn:Hg; [done|].
    destruct (String.eqb key "_sdc_extracted_at");
      rewrite dict_get_set_eq; intros [= <-]; auto.
  - destruct (String.eqb key "_sdc_extracted_at");
      rewrite dict_get_set_ne by done; auto.
Qed.

Lemma ensure_primary_keys_synth k p : ∀ properties,
  dict_get k (ensure_primary_keys C properties) = Some p ->
  dict_get k properties = Some p
  ∨ (dict_get k properties = None ∧ p = nullable_string).
Proof.
  unfold ensure_primary_keys, primary_keys.
  induction (cfg_keys C) as [|pk pks IH]; intros properties; simpl; [auto|].
  intros [H|[H Hp]]%IH; unfold dict_mem in H;
    destruct (dict_get pk properties) eqn:Hpk; auto.
  - destruct (String.eqb k pk) eqn:Ek.
    + apply String.eqb_eq in Ek as ->. rewrite dict_get_set_eq in H.
      injection H as <-. right. by rewrite Hpk.
    + rewrite dict_get_set_ne in H by done. by left.
  - destruct (String.eqb k pk) eqn:Ek.
    + apply String.eqb_eq in Ek as ->. by rewrite dict_get_set_eq in H.
    + rewrite dict_get_set_ne in H by done. by right.
Qed.

(** X17. Every property of an inferred schema lists only type names of
    JSON Schema: the internal tag ["date-time"] never shows as a type, it
    shows as the format of a string. A property has no format or the
    date-time format. *)
Theorem schema_types_are_json_types samples k p :
  dict_get k (properties_of_samples L C samples) = Some p ->
  (∀ t, t ∈ type_tags (p_type p) -> t ∈ json_type_names) ∧
  (p_format p = None
   ∨ (p_format p = Some "date-time" ∧ "string" ∈ type_tags (p_type p))).
Proof.
  unfold properties_of_samples.
  assert (Hsynth : ∀ q, q = nullable_string ∨ q = nullable_date_time ->
            (∀ t, t ∈ type_tags (p_type q) -> t ∈ json_type_names) ∧
            (p_format q = None
             ∨ (p_format q = Some "date-time" ∧ "string" ∈ type_tags (p_type q)))).
  { unfold json_type_names. intros q [-> | ->]; simpl; split; set_solver. }
  intros [H|[_ ->]]%ensure_primary_keys_synth; [|by apply Hsynth; left].
  apply ensure_replication_key_synth in H as [H|[_ Hq]]; [|by apply Hsynth].
  rewrite (dict_get_map property_of_types) in H.
  destruct (dict_get k (observe_samples L samples)) as [T|] eqn:HT; [|done].
  injection H as <-. split.
  - apply property_of_types_names. intros t Ht.
    destruct (observes_samples L samples) as [_ Hobs]. specialize (Hobs k).
    rewrite HT in Hobs. destruct Hobs as (_ & Htags & _).
    destruct (Htags t Ht) as (v & _ & ->). apply infer_type_range.
  - destruct (property_of_types_nullable_format T) as (_ & Hf & Hn).
    destruct (decide ("date-time" ∈ T)) as [Hd|Hd].
    + right. split; [by apply Hf|]. unfold property_of_types.
      rewrite bool_decide_eq_true_2 by done.
      destruct (bool_decide ("null" ∈ T)); simpl; set_solver.
    + left. by apply Hn.
Qed.

End TypeNames.

Lemma schema_types_are_json_types_witness :
  dict_get "amount" (properties_of_samples Sample.lib Sample.stamped_stream
                       Sample.rows)
  = Some {| p_type := TOne "number"; p_format := None |} ∧
  (∀ t, t ∈ ["number"] -> t ∈ json_type_names).
Proof.
  split; [by vm_compute|].
  exact (proj1 (schema_types_are_json_types Sample.lib Sample.stamped_stream
                  Sample.rows "amount"
                  {| p_type := TOne "number"; p_format := None |}
                  ltac:(by vm_compute))).
Defined.

(** ** The tabular reader *)

Lemma sanitize_value_finite v f :
  sanitize_value v = PFloat f -> ∃ m e, f = FFin m e.
Proof. destruct v as [| | |[|?|m e]| | | |]; simpl; try done. intros [= <-]. eauto. Qed.

Lemma sanitize_fold_get k v rec : ∀ acc,
  dict_get k
    (fold_left (fun sanitized_rec '(k, v) => dict_set k (sanitize_value v) sanitized_rec)
       rec acc) = Some v ->
  dict_get k acc = Some v ∨ ∃ v0, (k, v0) ∈ rec ∧ v = sanitize_value v0.
Proof.
  induction rec as [|[k' v'] rec IH]; intros acc; simpl; [auto|].
  intros [H|(v0 & Hin & ->)]%IH.
  - destruct (String.eqb k k') eqn:E.
    + apply String.eqb_eq in E as ->. rewrite dict_get_set_eq in H.
      injection H as <-. right. exists v'. split; [by left|done].
    + rewrite dict_get_set_ne in H by done. by left.
  - right. exists v0. split; [by right|done].
Qed.

Lemma dict_set_fresh {V : Type} k (v : V) d :
  k ∉ d.*1 -> dict_set k v d = d ++ [(k, v)].
Proof.
  induction d as [|[k' v'] d IH]; [done|]. rewrite fmap_cons, not_elem_of_cons.
  intros [Hne Hd]. cbn [dict_set]. simpl in Hne.
  apply String.eqb_neq in Hne. rewrite Hne. simpl. by rewrite IH.
Qed.

Section Csv.

Variable X : csv_backend.
Variable csv : option (list (string * pyval)).
Variable chunksize : option Z.

(** X18. No record yielded by the tabular reader holds a float that is
    not finite: a NaN or an infinity read from the file has become
    [None]. *)
Theorem iter_csv_yields_finite path st rec k f :
  rec ∈ (_iter_csv X csv chunksize path st).1.1 ->
  dict_get k rec = Some (PFloat f) ->
  ∃ m e, f = FFin m e.
Proof.
  unfold _iter_csv.
  set (fetched := match _cached_file_contents st !! path with
                  | Some c => _ | None => _ end).
  destruct fetched as [[content|e] st']; simpl; [|by intros ?%not_elem_of_nil].
  unfold csv_records. destruct (if (0 <? _)%Z then _ else _) as [recs err].
  simpl. intros (raw & -> & _)%list_elem_of_fmap Hk.
  apply sanitize_fold_get in Hk as [?|(v0 & _ & Hv)]; [done|].
  by apply (sanitize_value_finite v0).
Qed.

(** X19. Sanitizing a record, a mapping with distinct keys, keeps its
    keys and their order and changes no value other than the floats that
    are not finite. *)
Theorem sanitize_record_keeps rec :
  NoDup rec.*1 ->
  sanitize_record rec = map (fun '(k, v) => (k, sanitize_value v)) rec.
Proof.
  unfold sanitize_record.
  assert (Hgen : ∀ acc : record, NoDup (acc ++ rec).*1 ->
            fold_left (fun sanitized_rec '(k, v) =>
                         dict_set k (sanitize_value v) sanitized_rec) rec acc
            = acc ++ map (fun '(k, v) => (k, sanitize_value v)) rec).
  { induction rec as [|[k v] rec IH]; intros acc Hnd; simpl.
    - by rewrite app_nil_r.
    - rewrite (cons_middle (k, v) acc rec), app_assoc in Hnd.
      assert (Hfresh : k ∉ acc.*1).
      { rewrite !fmap_app in Hnd. apply NoDup_app in Hnd as [Hnd _].
        apply NoDup_app in Hnd as (_ & Hnd & _). intros Hin.
        apply (Hnd k Hin). simpl. by left. }
      rewrite dict_set_fresh by done.
      rewrite IH, <- app_assoc; [done|].
      rewrite !fmap_app in Hnd |- *. exact Hnd. }
  intros Hnd. by apply (Hgen []).
Qed.

(** X20. A file is read from storage once: after a call that found the
    content, in the cache or by opening the file, a second call for the
    same path yields the same records and leaves the stream as it is, so
    the file is not opened again. *)
Theorem iter_csv_reads_once path st :
  is_Some (_cached_file_contents st !! path)
  ∨ (∃ content, smart_open_read X path = Ok content) ->
  _iter_csv X csv chunksize path (_iter_csv X csv chunksize path st).2
  = _iter_csv X csv chunksize path st.
Proof.
  intros H. unfold _iter_csv at 2 3.
  destruct (_cached_file_contents st !! path) as [c|] eqn:Hc.
  - simpl. unfold _iter_csv. by rewrite Hc.
  - destruct H as [[? ?]|[content Hopen]]; [done|]. rewrite Hopen. simpl.
    unfold _iter_csv. simpl. by rewrite lookup_insert_eq.
Qed.

End Csv.

(** ** Connection options *)

Lemma set_from_auth_get auth name key opts k v :
  dict_get k (set_from_auth auth name key opts) = Some v ->
  dict_get k opts = Some v
  ∨ (k = key ∧ ∃ s, dict_get name auth = Some s ∧ s ≠ "" ∧ v = OptStr s).
Proof.
  unfold set_from_auth. destruct (dict_get name auth) as [s|]; [|auto].
  destruct (String.eqb s "") eqn:Es; [auto|]. apply String.eqb_neq in Es.
  destruct (String.eqb k key) eqn:Ek.
  - apply String.eqb_eq in Ek as ->. rewrite dict_get_set_eq. intros [= <-].
    right. split; [done|]. by exists s.
  - rewrite dict_get_set_ne by done. auto.
Qed.

Section StorageOptions.

Variable urlparse_netloc : string -> option netloc.
Variable unquote : string -> string.

(** X21. Connection options are only made for [s3] and [sftp] URIs, the
    scheme read without regard to case. Every option of an [s3] URI is a
    non-empty value of the auth configuration under its own name, every
    option of an [sftp] URI is a part of the URI itself, and a URI of any
    other scheme gets no option at all, whatever the auth configuration
    holds. *)
Theorem storage_options_origin auth uri opts k v :
  _storage_options urlparse_netloc unquote auth uri = Ok opts ->
  dict_get k opts = Some v ->
  let scheme := lower (List.hd "" (split ":" uri)) in
  (scheme = "s3" ∧
   ((∃ name s,
       (k, name) ∈ [("profile", "aws_profile"); ("key", "aws_access_key_id");
                    ("secret", "aws_secret_access_key");
                    ("token", "aws_session_token")]
       ∧ dict_get name (default [] auth) = Some s ∧ s ≠ "" ∧ v = OptStr s)
    ∨ (∃ r, k = "client_kwargs"
            ∧ dict_get "aws_region" (default [] auth) = Some r ∧ r ≠ ""
            ∧ v = OptDict [("region_name", r)])))
  ∨ (scheme = "sftp" ∧
     ∃ parsed, urlparse_netloc uri = Some parsed ∧
       ((k = "host" ∧ ∃ h, nl_hostname parsed = Some h ∧ h ≠ "" ∧ v = OptStr h)
        ∨ (k = "port" ∧ ∃ n, nl_port parsed = Some n ∧ n ≠ 0%Z ∧ v = OptInt n)
        ∨ (k = "username"
           ∧ ∃ u, nl_username parsed = Some u ∧ u ≠ "" ∧ v = OptStr u)
        ∨ (k = "password"
           ∧ ∃ pw, nl_password parsed = Some pw ∧ pw ≠ ""
                   ∧ v = OptStr (unquote pw)))).
Proof.
  intros Hopts Hk. cbv zeta. unfold _storage_options in Hopts.
  set (scheme := lower (List.hd "" (split ":" uri))) in *.
  destruct (String.eqb scheme "s3") eqn:Es3.
  - apply String.eqb_eq in Es3. left. split; [done|].
    injection Hopts as <-.
    assert (Hregion :
      dict_get k
        (set_from_auth (default [] auth) "aws_session_token" "token"
           (set_from_auth (default [] auth) "aws_secret_access_key" "secret"
              (set_from_auth (default [] auth) "aws_access_key_id" "key"
                 (set_from_auth (default [] auth) "aws_profile" "profile" []))))
      = Some v
      ∨ (∃ r, k = "client_kwargs"
              ∧ dict_get "aws_region" (default [] auth) = Some r ∧ r ≠ ""
              ∧ v = OptDict [("region_name", r)])).
    { destruct (dict_get "aws_region" (default [] auth)) as [r|]; [|by left].
      destruct (String.eqb r "") eqn:Er; [by left|]. apply String.eqb_neq in Er.
      destruct (String.eqb k "client_kwargs") eqn:Ek.
      - apply String.eqb_eq in Ek as ->. rewrite dict_get_set_eq in Hk.
        injection Hk as <-. right. by exists r.
      - rewrite dict_get_set_ne in Hk by done. by left. }
    destruct Hregion as [H|H]; [left|by right].
    apply set_from_auth_get in H as [H|[-> (s & ? & ? & ->)]];
      [|exists "aws_session_token", s; split_and!; [by repeat constructor|done..]].
    apply set_from_auth_get in H as [H|[-> (s & ? & ? & ->)]];
      [|exists "aws_secret_access_key", s; split_and!; [by repeat constructor|done..]].
    apply set_from_auth_get in H as [H|[-> (s & ? & ? & ->)]];
      [|exists "aws_access_key_id", s; split_and!; [by repeat constructor|done..]].
    apply set_from_auth_get in H as [H|[-> (s & ? & ? & ->)]];
      [done|exists "aws_profile", s; split_and!; [by repeat constructor|done..]].
  - destruct (String.eqb scheme "sftp") eqn:Esftp.
    + apply String.eqb_eq in Esftp. right. split; [done|].
      destruct (urlparse_netloc uri) as [parsed|]; [|done].
      exists parsed. split; [done|]. injection Hopts as <-.
      destruct (nl_hostname parsed) as [[|a1 s1]|];
      destruct (nl_port parsed) as [n|]; try destruct (Z.eqb_spec n 0);
      destruct (nl_username parsed) as [[|a3 s3]|];
      destruct (nl_password parsed) as [[|a4 s4]|];
      simpl in Hk;
      repeat match type of Hk with
             | context [String.eqb k ?c] =>
                 let E := fresh "E" in
                 destruct (String.eqb k c) eqn:E;
                 [apply String.eqb_eq in E; subst k|]
             end;
      try discriminate Hk; injection Hk as <-;
      first [ left; split; [reflexivity|]; eexists; by split_and!
            | right; left; split; [reflexivity|]; eexists; by split_and!
            | right; right; left; split; [reflexivity|]; eexists; by split_and!
            | right; right; right; split; [reflexivity|]; eexists; by split_and! ].
    + injection Hopts as <-. done.
Qed.

End StorageOptions.

Lemma iter_csv_yields_finite_witness :
  (Tabular.plain_row
     ∈ (_iter_csv Tabular.one_file None None "data.csv" Tabular.nothing_read).1.1
   ∧ dict_get "amount" Tabular.plain_row = Some (PFloat (FFin 3 (-1)))) ∧
  ∃ m e, FFin 3 (-1) = FFin m e.
Proof.
  assert (H : Tabular.plain_row
     ∈ (_iter_csv Tabular.one_file None None "data.csv" Tabular.nothing_read).1.1).
  { vm_compute. by repeat constructor. }
  split; [by split|].
  exact (iter_csv_yields_finite Tabular.one_file None None "data.csv"
           Tabular.nothing_read Tabular.plain_row "amount" (FFin 3 (-1))
           H eq_refl).
Defined.

Lemma sanitize_record_keeps_witness :
  NoDup Tabular.nan_row.*1 ∧
  sanitize_record Tabular.nan_row = [("id", PInt 1); ("amount", PNone)].
Proof.
  assert (H : NoDup Tabular.nan_row.*1).
  { apply (bool_decide_unpack _). by vm_compute. }
  split; [exact H|].
  exact (sanitize_record_keeps Tabular.nan_row H).
Defined.

Lemma iter_csv_reads_once_witness :
  (∃ content, smart_open_read Tabular.one_file "data.csv" = Ok content) ∧
  _iter_csv Tabular.one_file None None "data.csv"
    (_iter_csv Tabular.one_file None None "data.csv" Tabular.nothing_read).2
  = _iter_csv Tabular.one_file None None "data.csv" Tabular.nothing_read.
Proof.
  assert (H : ∃ content, smart_open_read Tabular.one_file "data.csv" = Ok content)
    by by exists "id,amount".
  split; [exact H|].
  exact (iter_csv_reads_once Tabular.one_file None None "data.csv"
           Tabular.nothing_read (or_intror H)).
Defined.

Lemma storage_options_origin_witness :
  (_storage_options (fun _ => None) (fun s => s) (Some Tabular.aws_auth)
     "S3://bucket/data.csv"
   = Ok [("key", OptStr "AKIA"); ("secret", OptStr "s3cr3t")]
   ∧ dict_get "secret" [("key", OptStr "AKIA"); ("secret", OptStr "s3cr3t")]
     = Some (OptStr "s3cr3t")) ∧
  lower (List.hd "" (split ":" "S3://bucket/data.csv")) = "s3".
Proof.
  split; [by split|].
  destruct (storage_options_origin (fun _ => None) (fun s => s)
              (Some Tabular.aws_auth) "S3://bucket/data.csv"
              [("key", OptStr "AKIA"); ("secret", OptStr "s3cr3t")]
              "secret" (OptStr "s3cr3t") eq_refl eq_refl) as [[H _]|[H _]].
  - exact H.
  - discriminate H.
Defined.

(** ** The line-delimited reader *)





Section Jsonl.

Context {A : Type}.
Variable json_loads : string -> option A.



End Jsonl.

